(** * curl_cffi/aio.py: the asyncio adapter around a curl_multi handle

    A shallow embedding of [AsyncCurl] and of the two callbacks libcurl calls
    back into ([timer_function], [socket_function]).

    The Python code mutates one [AsyncCurl] instance, the event loop it
    holds, the futures it hands out and the native library.  All of them
    live in one explicit [State]; every method is a computation in a state
    monad with exceptions, so that the mutations made before a [raise]
    are kept, as in Python.

    What lies outside the file is kept at its boundary:
    - the native library [lib]: each call is appended, with its arguments,
      to [lib_calls] and returns, unless [_curlm] is [None], which the
      binding refuses with [TypeError]; what the engine answers
      ([running_handle], the messages [curl_multi_info_read] yields) is an
      input of [process_data];
    - [asyncio]: [add_reader]/[remove_reader], [call_later],
      [TimerHandle.cancel], [create_future] and the [Future] state machine
      ([set_result] on a future that is not pending raises
      [InvalidStateError]);
    - [ffi.from_handle(clientp)] gives back the one adapter of the state.

    Not followed: the [setopt] calls of [_setup] and the [_force_timeout]
    coroutine (a [socket_action] every second).  [_get_selector] and the
    registry of selector threads have a state of their own, [Interp].  [_timers] is a [WeakSet]: it is kept as the list of the
    handles added since it was last replaced; that a handle nobody holds
    any more leaves it on its own is not modelled.  The dictionaries are
    finite maps: the order in which [close] walks [_curl2future] shows
    only in the order of the native calls it logs. *)

From Stdlib Require Import ZArith.
From stdpp Require Import gmap strings pretty.

(** ** Constants *)

Definition CURL_POLL_NONE : Z := 0.
Definition CURL_POLL_IN : Z := 1.
Definition CURL_POLL_OUT : Z := 2.
Definition CURL_POLL_INOUT : Z := 3.
Definition CURL_POLL_REMOVE : Z := 4.

Definition CURL_SOCKET_TIMEOUT : Z := -1.
Definition CURL_SOCKET_BAD : Z := -1.

Definition CURL_CSELECT_IN : Z := 1.
Definition CURL_CSELECT_OUT : Z := 2.
Definition CURL_CSELECT_ERR : Z := 4.

Definition CURLMSG_DONE : Z := 1.

(** ** Python values *)

(** A [Curl] object: its identity (dictionaries hash it by identity) and
    its native easy handle [curl._curl]. *)
Record Curl := { curl_id : nat; _curl : Z }.

#[global] Instance Curl_eq_dec : EqDecision Curl.
Proof. solve_decision. Defined.

#[global] Instance Curl_countable : Countable Curl :=
  inj_countable' (λ c, (curl_id c, _curl c))
                 (λ p, {| curl_id := p.1; _curl := p.2 |})
                 (λ c, match c with Build_Curl _ _ => eq_refl end).

(** Modelled from the spec: [Curl._get_error] is not in aio.py; the
    exception it builds is kept as the object carrying the transfer, the
    native status code and the name of the failing operation. *)
Inductive PyExc :=
| KeyError (key : Z)
| TypeError (message : string)
| InvalidStateError
| CurlError (curl : Curl) (retcode : Z) (action : string).

Inductive PyValue := PyNone.

(** [asyncio.Future]: pending, finished with a result or with an
    exception, or cancelled. *)
Inductive Future :=
| PENDING
| FINISHED_result (v : PyValue)
| FINISHED_exception (e : PyExc)
| CANCELLED.

Definition is_terminal (f : Future) : bool :=
  match f with PENDING => false | _ => true end.

(** [asyncio.TimerHandle] made by [loop.call_later(timeout_ms / 1000,
    process_data, sockfd, ev_bitmask)]: the delay is kept in milliseconds. *)
Record TimerHandle := {
  delay_ms : Z;
  timer_args : Z * Z;
  timer_cancelled : bool
}.

Definition cancel_handle (h : TimerHandle) : TimerHandle :=
  {| delay_ms := delay_ms h; timer_args := timer_args h;
     timer_cancelled := true |}.

(** The message struct [curl_multi_info_read] returns. *)
Record CURLMsg := { msg : Z; easy_handle : Z; data_result : Z }.

(** What the native engine answers during one [process_data]: the count
    written to [running_handle] and the messages its queue yields, in
    order, before [curl_multi_info_read] returns NULL. *)
Record EngineReply := { running_handle : Z; msg_queue : list CURLMsg }.

(** The calls made into the native library (and into [Curl]). *)
Inductive LibCall :=
| curl_multi_add_handle (curlm : option Z) (easy : Z)
| curl_multi_remove_handle (curlm : option Z) (easy : Z)
| curl_multi_cleanup (curlm : option Z)
| curl_multi_socket_action (curlm : option Z) (sockfd ev_bitmask : Z)
| curl_multi_info_read (curlm : option Z)
| curl_ensure_cacert (curl : Curl).

(** ** The state *)

Record State := {
  (* AsyncCurl fields *)
  _curlm : option Z;              (* the multi handle; None after close *)
  _curl2future : gmap Curl nat;   (* curl to future map *)
  _curl2curl : gmap Z Curl;       (* c curl to Curl *)
  _sockfds : gset Z;
  _timers : list nat;             (* WeakSet of the loop's timer handles *)
  _checker_cancelled : bool;      (* the _force_timeout task *)
  (* self.loop *)
  readers : gmap Z (Z * Z);       (* fd -> arguments of process_data *)
  writers : gmap Z (Z * Z);
  scheduled : list TimerHandle;   (* every handle call_later returned *)
  (* the futures create_future returned, by reference *)
  futures : list Future;
  (* the outside *)
  lib_calls : list LibCall;
  warnings : list string;
  stdout : list string
}.

Definition set_curlm (v : option Z) (s : State) : State :=
  {| _curlm := v; _curl2future := _curl2future s; _curl2curl := _curl2curl s;
     _sockfds := _sockfds s; _timers := _timers s;
     _checker_cancelled := _checker_cancelled s;
     readers := readers s; writers := writers s; scheduled := scheduled s;
     futures := futures s; lib_calls := lib_calls s; warnings := warnings s;
     stdout := stdout s |}.

Definition upd_curl2future (f : gmap Curl nat → gmap Curl nat) (s : State) : State :=
  {| _curlm := _curlm s; _curl2future := f (_curl2future s);
     _curl2curl := _curl2curl s;
     _sockfds := _sockfds s; _timers := _timers s;
     _checker_cancelled := _checker_cancelled s;
     readers := readers s; writers := writers s; scheduled := scheduled s;
     futures := futures s; lib_calls := lib_calls s; warnings := warnings s;
     stdout := stdout s |}.

Definition upd_curl2curl (f : gmap Z Curl → gmap Z Curl) (s : State) : State :=
  {| _curlm := _curlm s; _curl2future := _curl2future s;
     _curl2curl := f (_curl2curl s);
     _sockfds := _sockfds s; _timers := _timers s;
     _checker_cancelled := _checker_cancelled s;
     readers := readers s; writers := writers s; scheduled := scheduled s;
     futures := futures s; lib_calls := lib_calls s; warnings := warnings s;
     stdout := stdout s |}.

Definition upd_sockfds (f : gset Z → gset Z) (s : State) : State :=
  {| _curlm := _curlm s; _curl2future := _curl2future s;
     _curl2curl := _curl2curl s;
     _sockfds := f (_sockfds s); _timers := _timers s;
     _checker_cancelled := _checker_cancelled s;
     readers := readers s; writers := writers s; scheduled := scheduled s;
     futures := futures s; lib_calls := lib_calls s; warnings := warnings s;
     stdout := stdout s |}.

Definition upd_timers (f : list nat → list nat) (s : State) : State :=
  {| _curlm := _curlm s; _curl2future := _curl2future s;
     _curl2curl := _curl2curl s;
     _sockfds := _sockfds s; _timers := f (_timers s);
     _checker_cancelled := _checker_cancelled s;
     readers := readers s; writers := writers s; scheduled := scheduled s;
     futures := futures s; lib_calls := lib_calls s; warnings := warnings s;
     stdout := stdout s |}.

Definition set_checker_cancelled (b : bool) (s : State) : State :=
  {| _curlm := _curlm s; _curl2future := _curl2future s;
     _curl2curl := _curl2curl s;
     _sockfds := _sockfds s; _timers := _timers s;
     _checker_cancelled := b;
     readers := readers s; writers := writers s; scheduled := scheduled s;
     futures := futures s; lib_calls := lib_calls s; warnings := warnings s;
     stdout := stdout s |}.

Definition upd_readers (f : gmap Z (Z * Z) → gmap Z (Z * Z)) (s : State) : State :=
  {| _curlm := _curlm s; _curl2future := _curl2future s;
     _curl2curl := _curl2curl s;
     _sockfds := _sockfds s; _timers := _timers s;
     _checker_cancelled := _checker_cancelled s;
     readers := f (readers s); writers := writers s; scheduled := scheduled s;
     futures := futures s; lib_calls := lib_calls s; warnings := warnings s;
     stdout := stdout s |}.

Definition upd_writers (f : gmap Z (Z * Z) → gmap Z (Z * Z)) (s : State) : State :=
  {| _curlm := _curlm s; _curl2future := _curl2future s;
     _curl2curl := _curl2curl s;
     _sockfds := _sockfds s; _timers := _timers s;
     _checker_cancelled := _checker_cancelled s;
     readers := readers s; writers := f (writers s); scheduled := scheduled s;
     futures := futures s; lib_calls := lib_calls s; warnings := warnings s;
     stdout := stdout s |}.

Definition upd_scheduled (f : list TimerHandle → list TimerHandle) (s : State) : State :=
  {| _curlm := _curlm s; _curl2future := _curl2future s;
     _curl2curl := _curl2curl s;
     _sockfds := _sockfds s; _timers := _timers s;
     _checker_cancelled := _checker_cancelled s;
     readers := readers s; writers := writers s; scheduled := f (scheduled s);
     futures := futures s; lib_calls := lib_calls s; warnings := warnings s;
     stdout := stdout s |}.

Definition upd_futures (f : list Future → list Future) (s : State) : State :=
  {| _curlm := _curlm s; _curl2future := _curl2future s;
     _curl2curl := _curl2curl s;
     _sockfds := _sockfds s; _timers := _timers s;
     _checker_cancelled := _checker_cancelled s;
     readers := readers s; writers := writers s; scheduled := scheduled s;
     futures := f (futures s); lib_calls := lib_calls s; warnings := warnings s;
     stdout := stdout s |}.

Definition upd_lib_calls (f : list LibCall → list LibCall) (s : State) : State :=
  {| _curlm := _curlm s; _curl2future := _curl2future s;
     _curl2curl := _curl2curl s;
     _sockfds := _sockfds s; _timers := _timers s;
     _checker_cancelled := _checker_cancelled s;
     readers := readers s; writers := writers s; scheduled := scheduled s;
     futures := futures s; lib_calls := f (lib_calls s); warnings := warnings s;
     stdout := stdout s |}.

Definition upd_warnings (f : list string → list string) (s : State) : State :=
  {| _curlm := _curlm s; _curl2future := _curl2future s;
     _curl2curl := _curl2curl s;
     _sockfds := _sockfds s; _timers := _timers s;
     _checker_cancelled := _checker_cancelled s;
     readers := readers s; writers := writers s; scheduled := scheduled s;
     futures := futures s; lib_calls := lib_calls s; warnings := f (warnings s);
     stdout := stdout s |}.

Definition upd_stdout (f : list string → list string) (s : State) : State :=
  {| _curlm := _curlm s; _curl2future := _curl2future s;
     _curl2curl := _curl2curl s;
     _sockfds := _sockfds s; _timers := _timers s;
     _checker_cancelled := _checker_cancelled s;
     readers := readers s; writers := writers s; scheduled := scheduled s;
     futures := futures s; lib_calls := lib_calls s; warnings := warnings s;
     stdout := f (stdout s) |}.

(** ** State and exceptions *)

Inductive Res (A : Type) :=
| Ok (a : A)
| Raise (e : PyExc).
Arguments Ok {A} a.
Arguments Raise {A} e.

Definition M (A : Type) : Type := State → Res A * State.

#[global] Instance M_ret : MRet M := λ A a s, (Ok a, s).

#[global] Instance M_bind : MBind M := λ A B k m s,
  match m s with
  | (Ok a, s') => k a s'
  | (Raise e, s') => (Raise e, s')
  end.

Definition raise {A} (e : PyExc) : M A := λ s, (Raise e, s).
Definition gets {A} (f : State → A) : M A := λ s, (Ok (f s), s).
Definition modify (f : State → State) : M unit := λ s, (Ok tt, f s).

(** [for x in l: body(x)] *)
Fixpoint for_ {A} (l : list A) (body : A → M unit) : M unit :=
  match l with
  | [] => mret tt
  | x :: l' => body x ;; for_ l' body
  end.

(** Truth value of a Python int, and of [self._curlm] (None, or a cffi
    pointer, which is false when NULL). *)
Definition truthy (z : Z) : bool := negb (z =? 0)%Z.

Definition truthy_ptr (p : option Z) : bool :=
  match p with
  | None => false
  | Some a => truthy a
  end.

(** ** The event loop and the futures *)

(** [loop.add_reader(fd, process_data, sockfd, ev)]: a new registration
    replaces the one the descriptor had. *)
Definition loop_add_reader (fd : Z) (args : Z * Z) : M unit :=
  modify (upd_readers (<[fd := args]>)).

Definition loop_add_writer (fd : Z) (args : Z * Z) : M unit :=
  modify (upd_writers (<[fd := args]>)).

(** [loop.remove_reader(fd)]: no registration is no error (the boolean
    it returns is dropped by every caller). *)
Definition loop_remove_reader (fd : Z) : M unit :=
  modify (upd_readers (delete fd)).

Definition loop_remove_writer (fd : Z) : M unit :=
  modify (upd_writers (delete fd)).

(** [loop.call_later(delay, process_data, sockfd, ev)] returns the new
    handle, here its index in [scheduled]. *)
Definition loop_call_later (ms : Z) (args : Z * Z) : M nat :=
  λ s, (Ok (length (scheduled s)),
        upd_scheduled (λ l, l ++ [{| delay_ms := ms; timer_args := args;
                                     timer_cancelled := false |}]) s).

(** [timer.cancel()] *)
Definition timer_cancel (t : nat) : M unit :=
  modify (upd_scheduled (alter cancel_handle t)).

(** [loop.create_future()] returns a new pending future, here its index
    in [futures]. *)
Definition loop_create_future : M nat :=
  λ s, (Ok (length (futures s)), upd_futures (λ l, l ++ [PENDING]) s).

Definition future_done (f : nat) : M bool :=
  gets (λ s, match futures s !! f with
             | Some PENDING => false
             | _ => true
             end).

Definition future_cancelled (f : nat) : M bool :=
  gets (λ s, match futures s !! f with
             | Some CANCELLED => true
             | _ => false
             end).

(** [future.set_result(v)], [future.set_exception(e)]: asyncio raises
    [InvalidStateError] unless the future is pending. *)
Definition future_set_result (f : nat) (v : PyValue) : M unit :=
  λ s, match futures s !! f with
       | Some PENDING => (Ok tt, upd_futures (<[f := FINISHED_result v]>) s)
       | _ => (Raise InvalidStateError, s)
       end.

Definition future_set_exception (f : nat) (e : PyExc) : M unit :=
  λ s, match futures s !! f with
       | Some PENDING => (Ok tt, upd_futures (<[f := FINISHED_exception e]>) s)
       | _ => (Raise InvalidStateError, s)
       end.

(** [future.cancel()]: cancels a pending future and tells whether it did. *)
Definition future_cancel (f : nat) : M bool :=
  λ s, match futures s !! f with
       | Some PENDING => (Ok true, upd_futures (<[f := CANCELLED]>) s)
       | _ => (Ok false, s)
       end.

(** ** The outside *)

(** What cffi says when [None] is given where a pointer is expected. *)
Definition none_for_pointer : string :=
  "initializer for ctype 'void *' must be a cdata pointer, not NoneType".

(** A call that has no multi handle among its arguments. *)
Definition call (c : LibCall) : M unit :=
  modify (upd_lib_calls (λ l, l ++ [c])).

(** A call [lib.f(self._curlm, ...)]: the handle is read when the call is
    made.  cffi converts the arguments before it calls: for [None], which
    is what [close] leaves in [_curlm], it raises [TypeError] and nothing
    is called; a pointer, NULL included, goes through. *)
Definition lib (call : option Z → LibCall) : M unit :=
  λ s, match _curlm s with
       | None => (Raise (TypeError none_for_pointer), s)
       | Some _ => (Ok tt, upd_lib_calls (λ l, l ++ [call (_curlm s)]) s)
       end.

Definition warn (message : string) : M unit :=
  modify (upd_warnings (λ l, l ++ [message])).

Definition print (line : string) : M unit :=
  modify (upd_stdout (λ l, l ++ [line])).

(** ** The callbacks libcurl calls *)

Definition timer_function (timeout_ms : Z) : M unit :=
  if (timeout_ms =? -1)%Z then
    timers ← gets _timers;
    for_ timers timer_cancel;;
    modify (upd_timers (λ _, []))
  else
    timer ← loop_call_later timeout_ms (CURL_SOCKET_TIMEOUT, CURL_POLL_NONE);
    modify (upd_timers (λ l, l ++ [timer])).

Definition fd_not_found (sockfd : Z) : string :=
  "File descriptor " +:+ pretty sockfd +:+ " not found.".

(** [self._sockfds.remove(sockfd)]: KeyError when absent. *)
Definition sockfds_remove (sockfd : Z) : M unit :=
  λ s, if bool_decide (sockfd ∈ _sockfds s)
       then (Ok tt, upd_sockfds (λ fds, fds ∖ {[sockfd]}) s)
       else (Raise (KeyError sockfd), s).

Definition sockfds_add (sockfd : Z) : M unit :=
  modify (upd_sockfds (λ fds, {[sockfd]} ∪ fds)).

Definition socket_function (sockfd what : Z) : M unit :=
  (if truthy (Z.land what CURL_POLL_IN) || truthy (Z.land what CURL_POLL_OUT)
      || truthy (Z.land what CURL_POLL_REMOVE)
   then
     tracked ← gets (λ s, bool_decide (sockfd ∈ _sockfds s));
     if tracked : bool then
       loop_remove_reader sockfd;;
       loop_remove_writer sockfd;;
       sockfds_remove sockfd
     else if truthy (Z.land what CURL_POLL_REMOVE) then
       raise (TypeError (fd_not_found sockfd))
     else mret tt
   else mret tt);;
  (if truthy (Z.land what CURL_POLL_IN) then
     loop_add_reader sockfd (sockfd, CURL_CSELECT_IN);;
     sockfds_add sockfd
   else mret tt);;
  (if truthy (Z.land what CURL_POLL_OUT) then
     loop_add_writer sockfd (sockfd, CURL_CSELECT_OUT);;
     sockfds_add sockfd
   else mret tt).

(** ** AsyncCurl *)

(** The state [__init__] leaves, for the handle [curl_multi_init]
    returned (the four [setopt] calls are not followed). *)
Definition init (curlm : Z) : State :=
  {| _curlm := Some curlm; _curl2future := ∅; _curl2curl := ∅;
     _sockfds := ∅; _timers := []; _checker_cancelled := false;
     readers := ∅; writers := ∅; scheduled := []; futures := [];
     lib_calls := []; warnings := []; stdout := [] |}.

Definition close_future (item : Curl * nat) : M unit :=
  let '(curl, future) := item in
  lib (λ m, curl_multi_remove_handle m (_curl curl));;
  done ← future_done future;
  cancelled ← future_cancelled future;
  if negb done && negb cancelled then future_set_result future PyNone
  else mret tt.

Definition close_sockfd (sockfd : Z) : M unit :=
  loop_remove_reader sockfd;;
  loop_remove_writer sockfd.

Definition close : M unit :=
  modify (set_checker_cancelled true);;
  items ← gets (λ s, map_to_list (_curl2future s));
  for_ items close_future;;
  lib curl_multi_cleanup;;
  modify (set_curlm None);;
  sockfds ← gets (λ s, elements (_sockfds s));
  for_ sockfds close_sockfd;;
  timers ← gets _timers;
  for_ timers timer_cancel.

Definition add_handle (curl : Curl) : M nat :=
  call (curl_ensure_cacert curl);;
  lib (λ m, curl_multi_add_handle m (_curl curl));;
  future ← loop_create_future;
  modify (upd_curl2future (<[curl := future]>));;
  modify (upd_curl2curl (<[_curl curl := curl]>));;
  mret future.

Definition socket_action (sockfd ev_bitmask running : Z) : M Z :=
  lib (λ m, curl_multi_socket_action m sockfd ev_bitmask);;
  mret running.

(** [self._curl2curl.pop(h, None)]; [self._curl2future.pop(curl, None)] *)
Definition _pop_future (curl : Curl) : M (option nat) :=
  lib (λ m, curl_multi_remove_handle m (_curl curl));;
  modify (upd_curl2curl (delete (_curl curl)));;
  future ← gets (λ s, _curl2future s !! curl);
  modify (upd_curl2future (delete curl));;
  mret future.

(** [if future and not future.done() and not future.cancelled(): act] *)
Definition when_pending (future : option nat) (act : nat → M unit) : M unit :=
  match future with
  | None => mret tt
  | Some f =>
      done ← future_done f;
      cancelled ← future_cancelled f;
      if negb done && negb cancelled then act f else mret tt
  end.

Definition remove_handle (curl : Curl) : M unit :=
  future ← _pop_future curl;
  when_pending future (λ f, future_cancel f;; mret tt).

Definition set_result (curl : Curl) : M unit :=
  future ← _pop_future curl;
  when_pending future (λ f, future_set_result f PyNone).

Definition set_exception (curl : Curl) (exception : PyExc) : M unit :=
  future ← _pop_future curl;
  when_pending future (λ f, future_set_exception f exception).

(** One message of the [while True] loop of [process_data]:
    [self._curl2curl[curl_msg.easy_handle]] is a plain subscript. *)
Definition process_msg (curl_msg : CURLMsg) : M unit :=
  if (msg curl_msg =? CURLMSG_DONE)%Z then
    found ← gets (λ s, _curl2curl s !! easy_handle curl_msg);
    match found with
    | None => raise (KeyError (easy_handle curl_msg))
    | Some curl =>
        let retcode := data_result curl_msg in
        if (retcode =? 0)%Z then set_result curl
        else set_exception curl (CurlError curl retcode "perform")
    end
  else print "NOT DONE".

(** The loop itself, over the messages the engine yields; the last
    [curl_multi_info_read] returns NULL. *)
Fixpoint info_read_loop (queue : list CURLMsg) : M unit :=
  match queue with
  | [] => lib curl_multi_info_read
  | curl_msg :: queue' =>
      lib curl_multi_info_read;;
      process_msg curl_msg;;
      info_read_loop queue'
  end.

Definition closed_warning : string :=
  "Curlm alread closed! quitting from process_data".

Definition process_data (sockfd ev_bitmask : Z) (engine : EngineReply) : M unit :=
  curlm ← gets _curlm;
  if negb (truthy_ptr curlm) then warn closed_warning
  else
    socket_action sockfd ev_bitmask (running_handle engine);;
    info_read_loop (msg_queue engine).

(** ** Runs *)

(** What can happen to an adapter: its methods, and the two callbacks
    (those libcurl makes from inside [curl_multi_socket_action] are steps
    of their own, placed before the [process_data] that caused them:
    they touch the watches and timers only). *)
Inductive Op :=
| AddHandle (curl : Curl)
| RemoveHandle (curl : Curl)
| SetResult (curl : Curl)
| SetException (curl : Curl) (exception : PyExc)
| Close
| ProcessData (sockfd ev_bitmask : Z) (engine : EngineReply)
| TimerFunction (timeout_ms : Z)
| SocketFunction (sockfd what : Z).

Definition run_op (o : Op) : M unit :=
  match o with
  | AddHandle curl => add_handle curl;; mret tt
  | RemoveHandle curl => remove_handle curl
  | SetResult curl => set_result curl
  | SetException curl e => set_exception curl e
  | Close => close
  | ProcessData fd ev engine => process_data fd ev engine
  | TimerFunction ms => timer_function ms
  | SocketFunction fd what => socket_function fd what
  end.

(** A run: an exception ends the call that raised it and is seen by its
    caller; the state it left is the state the next call finds. *)
Fixpoint run (ops : list Op) (s : State) : State :=
  match ops with
  | [] => s
  | o :: ops' => run ops' (run_op o s).2
  end.

(** The four ways a future is resolved. *)
Definition is_resolution (o : Op) : bool :=
  match o with
  | RemoveHandle _ | SetResult _ | SetException _ _ | Close => true
  | _ => false
  end.

(** * Derived definitions *)

(** A relation between the state before and the state after that a
    computation keeps, whatever it returns or raises. *)
Definition preserves (R : State → State → Prop) {A} (m : M A) : Prop :=
  ∀ s, R s (m s).2.

(** A future that has left [PENDING] keeps its state. *)
Definition keeps_terminal (s s' : State) : Prop :=
  ∀ f st, futures s !! f = Some st → is_terminal st = true →
          futures s' !! f = Some st.

(** The state [_pop_future] leaves. *)
Definition popped (curl : Curl) (s : State) : State :=
  upd_curl2future (delete curl)
    (upd_curl2curl (delete (_curl curl))
       (upd_lib_calls
          (λ l, l ++ [curl_multi_remove_handle (_curlm s) (_curl curl)]) s)).

(** The state a guarded resolution leaves: the transfer is popped, and its
    future, when it had one that was pending, moves to [st]. *)
Definition resolved (curl : Curl) (st : Future) (s : State) : State :=
  match _curl2future s !! curl with
  | Some f =>
      match futures s !! f with
      | Some PENDING => upd_futures (<[f := st]>) (popped curl s)
      | _ => popped curl s
      end
  | None => popped curl s
  end.

(** One turn of the loop of [close] over the registry, on the futures. *)
Definition resolve_pending (futs : list Future) (f : nat) : list Future :=
  match futs !! f with
  | Some PENDING => <[f := FINISHED_result PyNone]> futs
  | _ => futs
  end.

(** The native calls that loop makes. *)
Definition remove_calls (curlm : option Z) (items : list (Curl * nat)) : list LibCall :=
  (λ item, curl_multi_remove_handle curlm (_curl item.1)) <$> items.

(** The loop of [close] over [_sockfds], on the readers or the writers. *)
Definition unwatch_all {V} (fds : list Z) (m : gmap Z V) : gmap Z V :=
  foldl (λ acc fd, delete fd acc) m fds.

(** The loop over [_timers] of [close] and of [timer_function]. *)
Definition cancel_all (ts : list nat) (sch : list TimerHandle) : list TimerHandle :=
  foldl (λ acc t, alter cancel_handle t acc) sch ts.

(** The state [close] leaves. *)
Definition closed (s : State) : State :=
  let items := map_to_list (_curl2future s) in
  let fds := elements (_sockfds s) in
  upd_scheduled (cancel_all (_timers s))
    (upd_writers (unwatch_all fds)
       (upd_readers (unwatch_all fds)
          (set_curlm None
             (upd_lib_calls
                (λ l, (l ++ remove_calls (_curlm s) items)
                        ++ [curl_multi_cleanup (_curlm s)])
                (upd_futures (λ l, foldl resolve_pending l items.*2)
                   (set_checker_cancelled true s)))))).

(** What the callback leaves for a descriptor it had: the old watches are
    dropped, then the watches the mask asks for are made. *)
Definition rewatched (sockfd what : Z) (s : State) : State :=
  let rd := truthy (Z.land what CURL_POLL_IN) in
  let wr := truthy (Z.land what CURL_POLL_OUT) in
  upd_sockfds (λ fds, if rd || wr then {[sockfd]} ∪ fds ∖ {[sockfd]}
                      else fds ∖ {[sockfd]})
    (upd_writers (λ m, if wr then <[sockfd := (sockfd, CURL_CSELECT_OUT)]> m
                       else delete sockfd m)
       (upd_readers (λ m, if rd then <[sockfd := (sockfd, CURL_CSELECT_IN)]> m
                          else delete sockfd m) s)).

(** A transfer-done message. *)
Definition DONE (easy : Z) (retcode : Z) : CURLMsg :=
  {| msg := CURLMSG_DONE; easy_handle := easy; data_result := retcode |}.

(** One turn of the [while True] loop that got a message. *)
Definition read_one (curl_msg : CURLMsg) : M unit :=
  lib curl_multi_info_read;;
  process_msg curl_msg.

(** [process_data] on a live adapter, up to the point where the message
    that follows [pre] is about to be read. *)
Definition drained_until (sockfd ev_bitmask running : Z) (pre : list CURLMsg) : M unit :=
  socket_action sockfd ev_bitmask running;;
  for_ pre read_one.

(** Every native handle of [_curl2curl] leads to the [Curl] object that
    owns it, and that object is in [_curl2future]. *)
Definition registry_consistent (s : State) : Prop :=
  ∀ h curl, _curl2curl s !! h = Some curl →
            _curl curl = h ∧ is_Some (_curl2future s !! curl).

(** A step that leaves a consistent registry consistent. *)
Definition keeps_consistent (s s' : State) : Prop :=
  registry_consistent s → registry_consistent s'.

(** ** Concrete states *)

(** Two transfers and their native handles. *)
Definition curl_A : Curl := {| curl_id := 0; _curl := 100 |}.

Definition curl_B : Curl := {| curl_id := 1; _curl := 200 |}.

(** Two transfers added to a new adapter. *)
Definition two_transfers : State :=
  run [AddHandle curl_A; AddHandle curl_B] (init 1).

(** The engine reports the end of the first transfer twice, then the end
    of the second. *)
Definition duplicate_done : EngineReply :=
  {| running_handle := 0;
     msg_queue := [DONE 100 0; DONE 100 0; DONE 200 0] |}.

(** A new adapter with one watched descriptor, one timer and two
    transfers. *)
Definition busy : State :=
  run [TimerFunction 500; SocketFunction 7 CURL_POLL_IN;
       AddHandle curl_A; AddHandle curl_B] (init 1).

(** A new adapter that watches descriptor 7 for reading. *)
Definition watching : State := run [SocketFunction 7 CURL_POLL_IN] (init 1).

(** A new adapter with one transfer. *)
Definition registered : State := run [AddHandle curl_A] (init 1).

(** The transfer of [registered] has completed. *)
Definition completed : State := run [SetResult curl_A] registered.

(** [two_transfers] after the caller has cancelled the future of the
    first transfer ([future.cancel()]); the transfer is still in the
    registry. *)
Definition caller_cancelled : State := (future_cancel 0 two_transfers).2.

(** ** Further derived definitions *)

(** What the socket callback leaves for a descriptor it did not have,
    when the mask has no remove bit: the watches the mask asks for. *)
Definition watched (sockfd what : Z) (s : State) : State :=
  let rd := truthy (Z.land what CURL_POLL_IN) in
  let wr := truthy (Z.land what CURL_POLL_OUT) in
  upd_sockfds (λ fds, if rd || wr then {[sockfd]} ∪ fds else fds)
    (upd_writers (λ m, if wr then <[sockfd := (sockfd, CURL_CSELECT_OUT)]> m
                       else m)
       (upd_readers (λ m, if rd then <[sockfd := (sockfd, CURL_CSELECT_IN)]> m
                          else m) s)).

(** The handle [timer_function] asks [call_later] for. *)
Definition timeout_timer (timeout_ms : Z) : TimerHandle :=
  {| delay_ms := timeout_ms;
     timer_args := (CURL_SOCKET_TIMEOUT, CURL_POLL_NONE);
     timer_cancelled := false |}.

(** A step that touches neither the multi handle, nor the registry, nor
    a future. *)
Definition same_registry (s s' : State) : Prop :=
  _curlm s' = _curlm s
  ∧ _curl2future s' = _curl2future s
  ∧ _curl2curl s' = _curl2curl s
  ∧ futures s' = futures s.

(** A step that touches neither the multi handle, nor the watch set, nor
    a watch, nor a timer. *)
Definition same_loop (s s' : State) : Prop :=
  _curlm s' = _curlm s
  ∧ _sockfds s' = _sockfds s
  ∧ readers s' = readers s
  ∧ writers s' = writers s
  ∧ _timers s' = _timers s
  ∧ scheduled s' = scheduled s.

(** The registry as the adapter keeps it: native handles lead to their
    owners, two transfers never share a future, every registered future
    exists, and as long as the adapter is open every registered future
    is pending. *)
Definition registry_wf (s : State) : Prop :=
  registry_consistent s
  ∧ (∀ c1 c2 f, _curl2future s !! c1 = Some f →
                _curl2future s !! c2 = Some f → c1 = c2)
  ∧ (∀ c f, _curl2future s !! c = Some f → f < length (futures s))
  ∧ (_curlm s ≠ None →
     ∀ c f, _curl2future s !! c = Some f → futures s !! f = Some PENDING).

(** The watch set as the adapter keeps it: a descriptor with a reader or
    a writer watch is in [_sockfds], and as long as the adapter is open a
    descriptor of [_sockfds] has one. *)
Definition watches_tracked (s : State) : Prop :=
  (∀ fd, is_Some (readers s !! fd) ∨ is_Some (writers s !! fd) →
         fd ∈ _sockfds s)
  ∧ (_curlm s ≠ None →
     ∀ fd, fd ∈ _sockfds s →
           is_Some (readers s !! fd) ∨ is_Some (writers s !! fd)).

(** The timers as the adapter keeps them: a handle that is not cancelled
    is in [_timers]. *)
Definition timers_tracked (s : State) : Prop :=
  ∀ t h, scheduled s !! t = Some h → timer_cancelled h = false →
         t ∈ _timers s.

(** The registry after [close]: once the adapter is closed no future of
    the registry is pending. *)
Definition closed_settled (s : State) : Prop :=
  _curlm s = None →
  ∀ curl f, _curl2future s !! curl = Some f →
            ∃ st, futures s !! f = Some st ∧ is_terminal st = true.

(** The state a transfer-done message asks for the transfer's future. *)
Definition outcome (curl : Curl) (retcode : Z) : Future :=
  if (retcode =? 0)%Z then FINISHED_result PyNone
  else FINISHED_exception (CurlError curl retcode "perform").

(** The native handles of the transfer-done messages of a queue. *)
Definition done_handles (queue : list CURLMsg) : list Z :=
  easy_handle <$> filter (λ m, msg m = CURLMSG_DONE) queue.

(** An invariant kept by a step. *)
Definition keeps (I : State → Prop) (s s' : State) : Prop := I s → I s'.


(** ** The selector registry of Windows

    [_get_selector_windows] and the [close] it installs on a proactor
    loop.  Event loops and selector threads are objects of the
    interpreter, named by their index; [_selectors] is the module's
    [WeakKeyDictionary] (an entry is not dropped here when its loop is
    collected).  [AddThreadSelectorEventLoop] is outside aio.py: of its
    [close] only what the comment in [_close_selector_and_loop] says is
    kept, that it calls the [close] of the loop it wraps. *)

Definition PROACTOR_WARNING : string :=
"
Proactor event loop does not implement add_reader family of methods required.
Registering an additional selector thread for add_reader support.
To avoid this warning use:
    asyncio.set_event_loop_policy(WindowsSelectorEventLoopPolicy())
".

(** What [_get_selector] returns: the loop itself or a selector thread. *)
Inductive EventLoop :=
| AsyncioLoop (loop_id : nat)
| SelectorLoop (selector_id : nat).

(** An asyncio loop: whether it is a [ProactorEventLoop], the selector
    thread whose [_close_selector_and_loop] stands in for its [close]
    (if any), and whether its own [close] has run. *)
Record LoopObject := {
  is_proactor : bool;
  close_patch : option nat;
  loop_closed : bool
}.

(** An [AddThreadSelectorEventLoop]: the loop it wraps and whether its
    [close] has run. *)
Record SelectorObject := {
  real_loop : nat;
  selector_closed : bool
}.

Record Interp := {
  _selectors : gmap nat nat;
  loops : gmap nat LoopObject;
  selector_threads : list SelectorObject;
  runtime_warnings : list string
}.

(** [isinstance(asyncio_loop, ProactorEventLoop)] *)
Definition isinstance_proactor (i : Interp) (asyncio_loop : nat) : bool :=
  match loops i !! asyncio_loop with
  | Some lo => is_proactor lo
  | None => false
  end.

Definition _get_selector_windows (asyncio_loop : nat) (i : Interp)
  : EventLoop * Interp :=
  match _selectors i !! asyncio_loop with
  | Some selector_loop => (SelectorLoop selector_loop, i)
  | None =>
      if negb (isinstance_proactor i asyncio_loop) then
        (AsyncioLoop asyncio_loop, i)
      else
        let selector_loop := length (selector_threads i) in
        (SelectorLoop selector_loop,
         {| _selectors := <[asyncio_loop := selector_loop]> (_selectors i);
            loops :=
              alter (λ lo, {| is_proactor := is_proactor lo;
                              close_patch := Some selector_loop;
                              loop_closed := loop_closed lo |})
                    asyncio_loop (loops i);
            selector_threads :=
              selector_threads i
                ++ [{| real_loop := asyncio_loop; selector_closed := false |}];
            runtime_warnings := runtime_warnings i ++ [PROACTOR_WARNING] |})
  end.

Definition _get_selector_noop (loop : nat) (i : Interp) : EventLoop * Interp :=
  (AsyncioLoop loop, i).

(** [_get_selector], chosen once from [sys.platform]. *)
Definition _get_selector (sys_platform : string) (loop : nat) (i : Interp)
  : EventLoop * Interp :=
  if String.eqb sys_platform "win32" then _get_selector_windows loop i
  else _get_selector_noop loop i.

(** The original [close] of a loop. *)
Definition original_close (lo : LoopObject) : LoopObject :=
  {| is_proactor := is_proactor lo; close_patch := close_patch lo;
     loop_closed := true |}.

(** [asyncio_loop.close()]: the installed [_close_selector_and_loop]
    when there is one (it puts the original [close] back, pops the loop
    from [_selectors] and closes the selector thread, which closes the
    loop), the original [close] otherwise. *)
Definition loop_close (asyncio_loop : nat) (i : Interp) : Interp :=
  match loops i !! asyncio_loop with
  | None => i
  | Some lo =>
      match close_patch lo with
      | None =>
          {| _selectors := _selectors i;
             loops := <[asyncio_loop := original_close lo]> (loops i);
             selector_threads := selector_threads i;
             runtime_warnings := runtime_warnings i |}
      | Some selector_loop =>
          {| _selectors := delete asyncio_loop (_selectors i);
             loops :=
               <[asyncio_loop :=
                   original_close {| is_proactor := is_proactor lo;
                                     close_patch := None;
                                     loop_closed := loop_closed lo |}]>
                 (loops i);
             selector_threads :=
               alter (λ so, {| real_loop := real_loop so;
                               selector_closed := true |})
                     selector_loop (selector_threads i);
             runtime_warnings := runtime_warnings i |}
      end
  end.

(** ** Further concrete states *)

(** The engine reports the end of both transfers, the second with
    status 28, and a message of another kind in between. *)
Definition mixed_queue : list CURLMsg :=
  [DONE 100 0; {| msg := 2; easy_handle := 100; data_result := 0 |};
   DONE 200 28].

(** An interpreter with one proactor loop. *)
Definition one_proactor : Interp :=
  {| _selectors := ∅;
     loops := {[ 0 := {| is_proactor := true; close_patch := None;
                         loop_closed := false |} ]};
     selector_threads := [];
     runtime_warnings := [] |}.

(** Calls of [process_data], as steps of a run. *)
Definition process_data_steps (calls : list (Z * Z * EngineReply)) : list Op :=
  (λ c, ProcessData c.1.1 c.1.2 c.2) <$> calls.

(** * Properties *)

(** ** Relations every step keeps *)

Section Preservation.
Context (R : State → State → Prop).
Hypothesis R_refl : ∀ s, R s s.
Hypothesis R_trans : ∀ s1 s2 s3, R s1 s2 → R s2 s3 → R s1 s3.

Lemma preserves_ret {A} (a : A) : preserves R (mret a).
Proof. intros s. apply R_refl. Qed.

Lemma preserves_raise {A} (e : PyExc) : preserves R (raise (A := A) e).
Proof. intros s. apply R_refl. Qed.

Lemma preserves_gets {A} (f : State → A) : preserves R (gets f).
Proof. intros s. apply R_refl. Qed.

Lemma preserves_modify (f : State → State) :
  (∀ s, R s (f s)) → preserves R (modify f).
Proof. intros H s. apply H. Qed.

Lemma preserves_bind {A B} (m : M A) (k : A → M B) :
  preserves R m → (∀ a, preserves R (k a)) → preserves R (m ≫= k).
Proof.
  intros Hm Hk s. unfold mbind, M_bind.
  specialize (Hm s). destruct (m s) as [[a|e] s']; simpl in *.
  - eapply R_trans; [exact Hm | apply Hk].
  - exact Hm.
Qed.

Lemma preserves_for {A} (l : list A) (body : A → M unit) :
  (∀ x, preserves R (body x)) → preserves R (for_ l body).
Proof.
  intros Hb. induction l as [|x l IH]; simpl.
  - apply preserves_ret.
  - apply preserves_bind; [apply Hb | intros _; exact IH].
Qed.

Lemma preserves_if {A} (b : bool) (m1 m2 : M A) :
  preserves R m1 → preserves R m2 → preserves R (if b then m1 else m2).
Proof. by destruct b. Qed.
End Preservation.

Lemma keeps_terminal_refl s : keeps_terminal s s.
Proof. by intros f st H _. Qed.

Lemma keeps_terminal_trans s1 s2 s3 :
  keeps_terminal s1 s2 → keeps_terminal s2 s3 → keeps_terminal s1 s3.
Proof. intros H12 H23 f st Hf Ht. apply H23, Ht. by apply H12. Qed.

Lemma keeps_terminal_same s s' : futures s' = futures s → keeps_terminal s s'.
Proof. intros E f st Hf _. by rewrite E. Qed.

Lemma keeps_terminal_insert s f st :
  futures s !! f = Some PENDING →
  keeps_terminal s (upd_futures (<[f := st]>) s).
Proof.
  intros Hp f' st' Hf' Ht. simpl.
  destruct (decide (f = f')) as [<-|Hne].
  - rewrite Hp in Hf'. by simplify_eq.
  - by rewrite list_lookup_insert_ne.
Qed.

Lemma keeps_terminal_create s :
  keeps_terminal s (upd_futures (λ l, l ++ [PENDING]) s).
Proof. intros f st Hf _. simpl. by apply lookup_app_l_Some. Qed.

Abbreviation kt := (preserves keeps_terminal).

Ltac kt_bind :=
  apply (preserves_bind keeps_terminal keeps_terminal_trans).

Ltac kt_frame :=
  apply (preserves_modify keeps_terminal); intros ?;
  apply keeps_terminal_same; reflexivity.

Lemma kt_for {A} (l : list A) (body : A → M unit) :
  (∀ x, kt (body x)) → kt (for_ l body).
Proof.
  apply preserves_for;
    [apply keeps_terminal_refl|apply keeps_terminal_trans].
Qed.

Lemma kt_lib call : kt (lib call).
Proof.
  intros s. unfold lib. destruct (_curlm s);
    [apply keeps_terminal_same; reflexivity|apply keeps_terminal_refl].
Qed.

Lemma kt_future_set_result f v : kt (future_set_result f v).
Proof.
  intros s. unfold future_set_result.
  destruct (futures s !! f) as [[]|] eqn:E; simpl;
    auto using keeps_terminal_refl, keeps_terminal_insert.
Qed.

Lemma kt_future_set_exception f e : kt (future_set_exception f e).
Proof.
  intros s. unfold future_set_exception.
  destruct (futures s !! f) as [[]|] eqn:E; simpl;
    auto using keeps_terminal_refl, keeps_terminal_insert.
Qed.

Lemma kt_future_cancel f : kt (future_cancel f).
Proof.
  intros s. unfold future_cancel.
  destruct (futures s !! f) as [[]|] eqn:E; simpl;
    auto using keeps_terminal_refl, keeps_terminal_insert.
Qed.

Lemma kt_pop_future curl : kt (_pop_future curl).
Proof.
  unfold _pop_future.
  kt_bind; [apply kt_lib|intros _].
  kt_bind; [kt_frame|intros _].
  kt_bind; [apply preserves_gets, keeps_terminal_refl|intros fut].
  kt_bind; [kt_frame|intros _].
  apply preserves_ret, keeps_terminal_refl.
Qed.

Lemma kt_when_pending future act :
  (∀ f, kt (act f)) → kt (when_pending future act).
Proof.
  intros Hact. destruct future as [f|]; simpl.
  - kt_bind; [apply preserves_gets, keeps_terminal_refl|intros d].
    kt_bind; [apply preserves_gets, keeps_terminal_refl|intros c].
    apply preserves_if; [apply Hact|apply preserves_ret, keeps_terminal_refl].
  - apply preserves_ret, keeps_terminal_refl.
Qed.

Lemma kt_remove_handle curl : kt (remove_handle curl).
Proof.
  unfold remove_handle. kt_bind; [apply kt_pop_future|intros fut].
  apply kt_when_pending. intros f.
  kt_bind; [apply kt_future_cancel|intros _].
  apply preserves_ret, keeps_terminal_refl.
Qed.

Lemma kt_set_result curl : kt (set_result curl).
Proof.
  unfold set_result. kt_bind; [apply kt_pop_future|intros fut].
  apply kt_when_pending. intros f. apply kt_future_set_result.
Qed.

Lemma kt_set_exception curl e : kt (set_exception curl e).
Proof.
  unfold set_exception. kt_bind; [apply kt_pop_future|intros fut].
  apply kt_when_pending. intros f. apply kt_future_set_exception.
Qed.

Lemma kt_close_future item : kt (close_future item).
Proof.
  destruct item as [curl f]. unfold close_future.
  kt_bind; [apply kt_lib|intros _].
  kt_bind; [apply preserves_gets, keeps_terminal_refl|intros d].
  kt_bind; [apply preserves_gets, keeps_terminal_refl|intros c].
  apply preserves_if;
    [apply kt_future_set_result|apply preserves_ret, keeps_terminal_refl].
Qed.

Lemma kt_close_sockfd fd : kt (close_sockfd fd).
Proof. unfold close_sockfd. kt_bind; [kt_frame|intros _; kt_frame]. Qed.

Lemma kt_timer_cancel t : kt (timer_cancel t).
Proof. kt_frame. Qed.

Lemma kt_close : kt close.
Proof.
  unfold close.
  kt_bind; [kt_frame|intros _].
  kt_bind; [apply preserves_gets, keeps_terminal_refl|intros items].
  kt_bind; [|intros _].
  { apply kt_for, kt_close_future. }
  kt_bind; [apply kt_lib|intros _].
  kt_bind; [kt_frame|intros _].
  kt_bind; [apply preserves_gets, keeps_terminal_refl|intros fds].
  kt_bind; [|intros _].
  { apply kt_for, kt_close_sockfd. }
  kt_bind; [apply preserves_gets, keeps_terminal_refl|intros ts].
  apply kt_for, kt_timer_cancel.
Qed.

Lemma kt_add_handle curl : kt (add_handle curl).
Proof.
  unfold add_handle.
  kt_bind; [kt_frame|intros _].
  kt_bind; [apply kt_lib|intros _].
  kt_bind; [intros s; apply keeps_terminal_create|intros f].
  kt_bind; [kt_frame|intros _].
  kt_bind; [kt_frame|intros _].
  apply preserves_ret, keeps_terminal_refl.
Qed.

Lemma kt_process_msg curl_msg : kt (process_msg curl_msg).
Proof.
  unfold process_msg. apply preserves_if; [|kt_frame].
  kt_bind; [apply preserves_gets, keeps_terminal_refl|intros [curl|]].
  - apply preserves_if; [apply kt_set_result|apply kt_set_exception].
  - apply preserves_raise, keeps_terminal_refl.
Qed.

Lemma kt_info_read_loop queue : kt (info_read_loop queue).
Proof.
  induction queue as [|m q IH]; simpl; [apply kt_lib|].
  kt_bind; [apply kt_lib|intros _].
  kt_bind; [apply kt_process_msg|intros _; exact IH].
Qed.

Lemma kt_process_data fd ev engine : kt (process_data fd ev engine).
Proof.
  unfold process_data.
  kt_bind; [apply preserves_gets, keeps_terminal_refl|intros m].
  apply preserves_if; [kt_frame|].
  kt_bind; [|intros _; apply kt_info_read_loop].
  unfold socket_action.
  kt_bind; [apply kt_lib|intros _; apply preserves_ret, keeps_terminal_refl].
Qed.

Lemma kt_timer_function ms : kt (timer_function ms).
Proof.
  unfold timer_function. apply preserves_if.
  - kt_bind; [apply preserves_gets, keeps_terminal_refl|intros ts].
    kt_bind; [|intros _; kt_frame].
    apply kt_for, kt_timer_cancel.
  - kt_bind; [|intros t; kt_frame].
    intros s. apply keeps_terminal_same. reflexivity.
Qed.

Lemma kt_sockfds_remove fd : kt (sockfds_remove fd).
Proof.
  intros s. unfold sockfds_remove. case_bool_decide; simpl;
    [apply keeps_terminal_same; reflexivity|apply keeps_terminal_refl].
Qed.

Lemma kt_socket_function fd what : kt (socket_function fd what).
Proof.
  unfold socket_function.
  kt_bind; [|intros _].
  { apply preserves_if; [|apply preserves_ret, keeps_terminal_refl].
    kt_bind; [apply preserves_gets, keeps_terminal_refl|intros tracked].
    apply preserves_if.
    - kt_bind; [kt_frame|intros _].
      kt_bind; [kt_frame|intros _; apply kt_sockfds_remove].
    - apply preserves_if;
        [apply preserves_raise|apply preserves_ret]; apply keeps_terminal_refl. }
  kt_bind; [|intros _].
  { apply preserves_if; [|apply preserves_ret, keeps_terminal_refl].
    kt_bind; [kt_frame|intros _; kt_frame]. }
  apply preserves_if; [|apply preserves_ret, keeps_terminal_refl].
  kt_bind; [kt_frame|intros _; kt_frame].
Qed.

Lemma kt_run_op o : kt (run_op o).
Proof.
  destruct o; simpl;
    auto using kt_remove_handle, kt_set_result, kt_set_exception, kt_close,
      kt_process_data, kt_timer_function, kt_socket_function.
  kt_bind; [apply kt_add_handle|intros _].
  apply preserves_ret, keeps_terminal_refl.
Qed.

Lemma keeps_terminal_run ops s : keeps_terminal s (run ops s).
Proof.
  revert s. induction ops as [|o ops IH]; intros s; simpl.
  - apply keeps_terminal_refl.
  - eapply keeps_terminal_trans; [apply kt_run_op|apply IH].
Qed.

(** ** What each method computes *)

Ltac unfold_m :=
  unfold mbind, M_bind, mret, M_ret, gets, call, modify, raise, warn, print.

(** A native call on an open adapter, and on a closed one. *)
Lemma lib_open call s :
  _curlm s ≠ None →
  lib call s = (Ok tt, upd_lib_calls (λ l, l ++ [call (_curlm s)]) s).
Proof. intros H. unfold lib. by destruct (_curlm s). Qed.

Lemma lib_closed call s :
  _curlm s = None → lib call s = (Raise (TypeError none_for_pointer), s).
Proof. intros H. unfold lib. by rewrite H. Qed.

Lemma pop_future_eq curl s :
  _curlm s ≠ None →
  _pop_future curl s = (Ok (_curl2future s !! curl), popped curl s).
Proof.
  intros H. unfold _pop_future. unfold_m. by rewrite lib_open.
Qed.

Lemma pop_future_closed curl s :
  _curlm s = None →
  _pop_future curl s = (Raise (TypeError none_for_pointer), s).
Proof.
  intros H. unfold _pop_future. unfold_m. by rewrite lib_closed.
Qed.

Lemma remove_handle_closed curl s :
  _curlm s = None →
  remove_handle curl s = (Raise (TypeError none_for_pointer), s).
Proof.
  intros H. unfold remove_handle. unfold_m. by rewrite pop_future_closed.
Qed.

Lemma set_result_closed curl s :
  _curlm s = None →
  set_result curl s = (Raise (TypeError none_for_pointer), s).
Proof.
  intros H. unfold set_result. unfold_m. by rewrite pop_future_closed.
Qed.

Lemma set_exception_closed curl e s :
  _curlm s = None →
  set_exception curl e s = (Raise (TypeError none_for_pointer), s).
Proof.
  intros H. unfold set_exception. unfold_m. by rewrite pop_future_closed.
Qed.

Lemma remove_handle_eq curl s :
  _curlm s ≠ None →
  remove_handle curl s = (Ok tt, resolved curl CANCELLED s).
Proof.
  intros Hopen.
  unfold remove_handle, resolved, when_pending, future_done, future_cancelled,
    future_cancel. unfold_m. rewrite pop_future_eq by done.
  destruct (_curl2future s !! curl) as [f|]; simpl; [|done].
  destruct (futures s !! f) as [[]|] eqn:E; simpl; try done;
    change (futures (popped curl s)) with (futures s); by rewrite E.
Qed.

Lemma set_result_eq curl s :
  _curlm s ≠ None →
  set_result curl s = (Ok tt, resolved curl (FINISHED_result PyNone) s).
Proof.
  intros Hopen.
  unfold set_result, resolved, when_pending, future_done, future_cancelled,
    future_set_result. unfold_m. rewrite pop_future_eq by done.
  destruct (_curl2future s !! curl) as [f|]; simpl; [|done].
  destruct (futures s !! f) as [[]|] eqn:E; simpl; try done;
    change (futures (popped curl s)) with (futures s); by rewrite E.
Qed.

Lemma set_exception_eq curl e s :
  _curlm s ≠ None →
  set_exception curl e s = (Ok tt, resolved curl (FINISHED_exception e) s).
Proof.
  intros Hopen.
  unfold set_exception, resolved, when_pending, future_done, future_cancelled,
    future_set_exception. unfold_m. rewrite pop_future_eq by done.
  destruct (_curl2future s !! curl) as [f|]; simpl; [|done].
  destruct (futures s !! f) as [[]|] eqn:E; simpl; try done;
    change (futures (popped curl s)) with (futures s); by rewrite E.
Qed.

Lemma for_cons {A} (x : A) (l : list A) (body : A → M unit) s :
  for_ (x :: l) body s =
  match body x s with
  | (Ok _, s') => for_ l body s'
  | (Raise e, s') => (Raise e, s')
  end.
Proof. reflexivity. Qed.

Lemma close_future_eq item s :
  _curlm s ≠ None →
  close_future item s =
  (Ok tt,
   upd_futures (λ l, resolve_pending l item.2)
     (upd_lib_calls
        (λ l, l ++ [curl_multi_remove_handle (_curlm s) (_curl item.1)]) s)).
Proof.
  intros Hopen. destruct item as [curl f].
  unfold close_future. unfold mbind, M_bind. rewrite lib_open by done.
  destruct s as [m c2f c2c fds ts ck rd wr sch futs calls ws out].
  unfold future_done, future_cancelled, future_set_result,
    resolve_pending, upd_futures, upd_lib_calls. unfold_m. simpl.
  destruct (futs !! f) as [[]|] eqn:E; simpl; by rewrite ?E.
Qed.

Lemma close_future_closed item s :
  _curlm s = None →
  close_future item s = (Raise (TypeError none_for_pointer), s).
Proof.
  intros H. destruct item as [curl f].
  unfold close_future. unfold mbind, M_bind. by rewrite lib_closed.
Qed.

Lemma for_close_future_eq items s :
  _curlm s ≠ None →
  for_ items close_future s =
  (Ok tt,
   upd_futures (λ l, foldl resolve_pending l items.*2)
     (upd_lib_calls (λ l, l ++ remove_calls (_curlm s) items) s)).
Proof.
  revert s. induction items as [|item items IH]; intros s Hopen.
  - destruct s; simpl. unfold_m. unfold upd_futures, upd_lib_calls; simpl.
    by rewrite app_nil_r.
  - rewrite for_cons, close_future_eq, IH by done.
    destruct s; unfold upd_futures, upd_lib_calls; simpl.
    by rewrite <- app_assoc.
Qed.

Lemma close_sockfd_eq fd s :
  close_sockfd fd s =
  (Ok tt, upd_writers (delete fd) (upd_readers (delete fd) s)).
Proof. reflexivity. Qed.

Lemma timer_cancel_eq t s :
  timer_cancel t s = (Ok tt, upd_scheduled (alter cancel_handle t) s).
Proof. reflexivity. Qed.

Lemma for_close_sockfd_eq fds s :
  for_ fds close_sockfd s =
  (Ok tt, upd_writers (unwatch_all fds) (upd_readers (unwatch_all fds) s)).
Proof.
  revert s. induction fds as [|fd fds IH]; intros s.
  - by destruct s.
  - rewrite for_cons, close_sockfd_eq. by rewrite IH.
Qed.

Lemma for_timer_cancel_eq ts s :
  for_ ts timer_cancel s = (Ok tt, upd_scheduled (cancel_all ts) s).
Proof.
  revert s. induction ts as [|t ts IH]; intros s.
  - by destruct s.
  - rewrite for_cons, timer_cancel_eq. by rewrite IH.
Qed.

Lemma close_eq s : _curlm s ≠ None → close s = (Ok tt, closed s).
Proof.
  intros Hopen. unfold close. unfold_m. simpl.
  rewrite for_close_future_eq by done. simpl.
  rewrite lib_open by done. simpl.
  rewrite for_close_sockfd_eq. simpl.
  rewrite for_timer_cancel_eq. reflexivity.
Qed.

(** A second [close]: the first native call is refused, after the
    checker was cancelled and before anything else. *)
Lemma close_closed s :
  _curlm s = None →
  close s = (Raise (TypeError none_for_pointer), set_checker_cancelled true s).
Proof.
  intros H. unfold close. unfold_m. simpl.
  destruct (map_to_list (_curl2future s)) as [|item items].
  - simpl. by rewrite lib_closed.
  - by rewrite for_cons, close_future_closed.
Qed.

(** Folding over the loops. *)
Lemma resolve_pending_lookup futs f :
  futs !! f = Some PENDING →
  resolve_pending futs f !! f = Some (FINISHED_result PyNone).
Proof.
  intros H. unfold resolve_pending. rewrite H.
  apply list_lookup_insert_eq. by eapply lookup_lt_Some.
Qed.

Lemma resolve_pending_terminal futs f g st :
  futs !! g = Some st → is_terminal st = true →
  resolve_pending futs f !! g = Some st.
Proof.
  intros H Ht. unfold resolve_pending.
  destruct (futs !! f) as [[]|] eqn:E; try done.
  rewrite list_lookup_insert_ne; [done|]. intros ->.
  rewrite E in H. by simplify_eq.
Qed.

Lemma resolve_pending_other futs f g :
  f ≠ g → resolve_pending futs f !! g = futs !! g.
Proof.
  intros Hne. unfold resolve_pending.
  destruct (futs !! f) as [[]|]; try done. by rewrite list_lookup_insert_ne.
Qed.

Lemma resolve_all_terminal fs futs g st :
  futs !! g = Some st → is_terminal st = true →
  foldl resolve_pending futs fs !! g = Some st.
Proof.
  revert futs. induction fs as [|f fs IH]; intros futs H Ht; simpl; [done|].
  apply IH; [|done]. by apply resolve_pending_terminal.
Qed.

Lemma resolve_all_pending fs futs f :
  f ∈ fs → futs !! f = Some PENDING →
  foldl resolve_pending futs fs !! f = Some (FINISHED_result PyNone).
Proof.
  revert futs. induction fs as [|g fs IH]; intros futs Hin Hp; simpl.
  - by apply elem_of_nil in Hin.
  - destruct (decide (g = f)) as [->|Hne].
    + apply resolve_all_terminal; [|done]. by apply resolve_pending_lookup.
    + apply IH.
      * apply elem_of_cons in Hin as [->|Hin]; [done|exact Hin].
      * by rewrite resolve_pending_other.
Qed.

Lemma unwatch_all_None {V} fds (m : gmap Z V) fd :
  m !! fd = None → unwatch_all fds m !! fd = None.
Proof.
  revert m. induction fds as [|x fds IH]; intros m H; simpl; [done|].
  apply IH. rewrite lookup_delete. by case_decide.
Qed.

Lemma unwatch_all_elem {V} fds (m : gmap Z V) fd :
  fd ∈ fds → unwatch_all fds m !! fd = None.
Proof.
  revert m. induction fds as [|x fds IH]; intros m Hin; simpl.
  - by apply elem_of_nil in Hin.
  - destruct (decide (x = fd)) as [->|Hne].
    + apply unwatch_all_None, lookup_delete_eq.
    + apply IH. apply elem_of_cons in Hin as [->|Hin]; [done|exact Hin].
Qed.

Lemma cancel_all_cancelled ts sch t h :
  sch !! t = Some h → timer_cancelled h = true →
  cancel_all ts sch !! t = Some h.
Proof.
  revert sch. induction ts as [|x ts IH]; intros sch H Hc; simpl; [done|].
  apply IH; [|done].
  destruct (decide (x = t)) as [->|Hne].
  - rewrite list_lookup_alter_eq, H. simpl. f_equal.
    destruct h; simpl in *; by subst.
  - by rewrite list_lookup_alter_ne.
Qed.

Lemma cancel_all_elem ts sch t h :
  t ∈ ts → sch !! t = Some h →
  cancel_all ts sch !! t = Some (cancel_handle h).
Proof.
  revert sch h. induction ts as [|x ts IH]; intros sch h Hin H; simpl.
  - by apply elem_of_nil in Hin.
  - destruct (decide (x = t)) as [->|Hne].
    + apply cancel_all_cancelled; [|done].
      by rewrite list_lookup_alter_eq, H.
    + apply IH.
      * apply elem_of_cons in Hin as [->|Hin]; [done|exact Hin].
      * by rewrite list_lookup_alter_ne.
Qed.

(** ** The socket callback *)

Lemma truthy_true z : z ≠ 0%Z → truthy z = true.
Proof. intros H. unfold truthy. by apply negb_true_iff, Z.eqb_neq. Qed.

Ltac red_state :=
  cbv beta iota delta
    [set_curlm upd_curl2future upd_curl2curl upd_sockfds upd_timers
     set_checker_cancelled upd_readers upd_writers upd_scheduled upd_futures
     upd_lib_calls upd_warnings upd_stdout
     _curlm _curl2future _curl2curl _sockfds _timers _checker_cancelled
     readers writers scheduled futures lib_calls warnings stdout
     orb andb negb].

Lemma socket_function_tracked s sockfd what :
  sockfd ∈ _sockfds s →
  truthy (Z.land what CURL_POLL_IN) || truthy (Z.land what CURL_POLL_OUT)
    || truthy (Z.land what CURL_POLL_REMOVE) = true →
  socket_function sockfd what s = (Ok tt, rewatched sockfd what s).
Proof.
  intros Hin Hany.
  destruct s as [m c2f c2c fds ts ck rd wr sch futs calls ws out].
  simpl in Hin.
  unfold socket_function, rewatched, sockfds_remove, sockfds_add,
    loop_remove_reader, loop_remove_writer, loop_add_reader, loop_add_writer.
  unfold_m. rewrite Hany. simpl.
  rewrite !bool_decide_eq_true_2 by done. simpl.
  destruct (truthy (Z.land what CURL_POLL_IN)),
    (truthy (Z.land what CURL_POLL_OUT)); red_state; do 2 f_equal;
    rewrite ?insert_delete_eq; try reflexivity; set_solver.
Qed.

Lemma socket_function_untracked_remove s sockfd what :
  sockfd ∉ _sockfds s →
  truthy (Z.land what CURL_POLL_REMOVE) = true →
  socket_function sockfd what s = (Raise (TypeError (fd_not_found sockfd)), s).
Proof.
  intros Hnin Hrm.
  unfold socket_function. unfold_m. rewrite Hrm, orb_true_r. simpl.
  by rewrite bool_decide_eq_false_2.
Qed.

Lemma land_truthy what bit : Z.land what bit ≠ 0%Z → truthy (Z.land what bit) = true.
Proof. apply truthy_true. Qed.

(** C5: a socket callback whose mask has the remove bit, for a descriptor
    that is not in [_sockfds], raises [TypeError] out of the callback; the
    state is as it was. *)
Theorem socket_function_remove_untracked_raises (s : State) (sockfd what : Z) :
  Z.land what CURL_POLL_REMOVE ≠ 0%Z →
  sockfd ∉ _sockfds s →
  socket_function sockfd what s
  = (Raise (TypeError (fd_not_found sockfd)), s).
Proof.
  intros Hrm Hnin.
  by apply socket_function_untracked_remove, land_truthy.
Qed.

Lemma rewatched_readers sockfd what s :
  readers (rewatched sockfd what s)
  = if truthy (Z.land what CURL_POLL_IN)
    then <[sockfd := (sockfd, CURL_CSELECT_IN)]> (readers s)
    else delete sockfd (readers s).
Proof. reflexivity. Qed.

Lemma rewatched_writers sockfd what s :
  writers (rewatched sockfd what s)
  = if truthy (Z.land what CURL_POLL_OUT)
    then <[sockfd := (sockfd, CURL_CSELECT_OUT)]> (writers s)
    else delete sockfd (writers s).
Proof. reflexivity. Qed.

Lemma rewatched_sockfds sockfd what s :
  _sockfds (rewatched sockfd what s)
  = if truthy (Z.land what CURL_POLL_IN) || truthy (Z.land what CURL_POLL_OUT)
    then {[sockfd]} ∪ _sockfds s ∖ {[sockfd]}
    else _sockfds s ∖ {[sockfd]}.
Proof. reflexivity. Qed.

Lemma rewatched_idemp sockfd what s :
  rewatched sockfd what (rewatched sockfd what s) = rewatched sockfd what s.
Proof.
  destruct s as [m c2f c2c fds ts ck rd wr sch futs calls ws out].
  unfold rewatched.
  destruct (truthy (Z.land what CURL_POLL_IN)),
    (truthy (Z.land what CURL_POLL_OUT)); red_state; f_equal;
    rewrite ?insert_insert_eq, ?delete_delete_eq; try reflexivity; set_solver.
Qed.

(** C6, as the code has it: a socket callback with the remove bit for a
    descriptor in [_sockfds] returns; it drops the reader and the writer
    watch the descriptor had and takes it out of the set, and then makes
    the watches the read and write bits of the same mask ask for.  No
    other descriptor is touched.  The same call made again returns and
    changes nothing when the mask has a read or write bit; for a mask
    without them it raises [TypeError] and changes nothing. *)
Theorem socket_function_remove_tracked (s : State) (sockfd what : Z) :
  sockfd ∈ _sockfds s →
  Z.land what CURL_POLL_REMOVE ≠ 0%Z →
  ∃ s',
    socket_function sockfd what s = (Ok tt, s')
    ∧ readers s' !! sockfd
      = (if truthy (Z.land what CURL_POLL_IN)
         then Some (sockfd, CURL_CSELECT_IN) else None)
    ∧ writers s' !! sockfd
      = (if truthy (Z.land what CURL_POLL_OUT)
         then Some (sockfd, CURL_CSELECT_OUT) else None)
    ∧ (sockfd ∈ _sockfds s' ↔
       truthy (Z.land what CURL_POLL_IN) || truthy (Z.land what CURL_POLL_OUT)
       = true)
    ∧ (∀ fd, fd ≠ sockfd →
         readers s' !! fd = readers s !! fd
         ∧ writers s' !! fd = writers s !! fd
         ∧ (fd ∈ _sockfds s' ↔ fd ∈ _sockfds s))
    ∧ socket_function sockfd what s'
      = (if truthy (Z.land what CURL_POLL_IN)
            || truthy (Z.land what CURL_POLL_OUT)
         then (Ok tt, s')
         else (Raise (TypeError (fd_not_found sockfd)), s')).
Proof.
  intros Hin Hrm. apply land_truthy in Hrm.
  exists (rewatched sockfd what s). split.
  { apply socket_function_tracked; [done|]. by rewrite Hrm, orb_true_r. }
  assert (Hmem : sockfd ∈ _sockfds (rewatched sockfd what s) ↔
                 truthy (Z.land what CURL_POLL_IN)
                 || truthy (Z.land what CURL_POLL_OUT) = true).
  { rewrite rewatched_sockfds.
    destruct (truthy (Z.land what CURL_POLL_IN)
              || truthy (Z.land what CURL_POLL_OUT)); set_solver. }
  split; [|split; [|split; [exact Hmem|split]]].
  - rewrite rewatched_readers.
    destruct (truthy (Z.land what CURL_POLL_IN));
      [apply lookup_insert_eq|apply lookup_delete_eq].
  - rewrite rewatched_writers.
    destruct (truthy (Z.land what CURL_POLL_OUT));
      [apply lookup_insert_eq|apply lookup_delete_eq].
  - intros fd Hne.
    rewrite rewatched_readers, rewatched_writers, rewatched_sockfds.
    split; [|split].
    + destruct (truthy (Z.land what CURL_POLL_IN));
        [by rewrite lookup_insert_ne|by rewrite lookup_delete_ne].
    + destruct (truthy (Z.land what CURL_POLL_OUT));
        [by rewrite lookup_insert_ne|by rewrite lookup_delete_ne].
    + destruct (truthy (Z.land what CURL_POLL_IN)
                || truthy (Z.land what CURL_POLL_OUT)); set_solver.
  - destruct (truthy (Z.land what CURL_POLL_IN)
              || truthy (Z.land what CURL_POLL_OUT)) eqn:E.
    + rewrite socket_function_tracked;
        [|by apply Hmem|by rewrite Hrm, orb_true_r].
      by rewrite rewatched_idemp.
    + apply socket_function_untracked_remove; [|done].
      intros Hin'. apply Hmem in Hin'. done.
Qed.

(** ** The timer callback *)

Lemma timer_function_cancel_eq s :
  timer_function (-1) s
  = (Ok tt, upd_timers (λ _, []) (upd_scheduled (cancel_all (_timers s)) s)).
Proof.
  unfold timer_function. unfold_m. simpl.
  by rewrite for_timer_cancel_eq.
Qed.

(** C7: [timer_function] with [timeout_ms = -1] returns; every timer that
    was in [_timers] is cancelled, [_timers] is left empty, and no future
    and no registry entry changes. *)
Theorem timer_function_cancels_all (s : State) :
  ∃ s',
    timer_function (-1) s = (Ok tt, s')
    ∧ _timers s' = []
    ∧ (∀ t h, t ∈ _timers s → scheduled s !! t = Some h →
         scheduled s' !! t = Some (cancel_handle h)
         ∧ timer_cancelled (cancel_handle h) = true)
    ∧ futures s' = futures s
    ∧ _curl2future s' = _curl2future s
    ∧ _curl2curl s' = _curl2curl s.
Proof.
  eexists. split; [apply timer_function_cancel_eq|].
  simpl. repeat split; try done.
  by apply cancel_all_elem.
Qed.

(** ** The drive loop on a closed adapter *)

(** C8: [process_data] on an adapter whose [_curlm] is [None] returns
    after the warning and does nothing else: no call into the native
    library, no message read, no future and no registry entry changed. *)
Theorem process_data_after_close (s : State) (sockfd ev_bitmask : Z)
    (engine : EngineReply) :
  _curlm s = None →
  process_data sockfd ev_bitmask engine s
  = (Ok tt, upd_warnings (λ l, l ++ [closed_warning]) s)
  ∧ lib_calls (process_data sockfd ev_bitmask engine s).2 = lib_calls s
  ∧ futures (process_data sockfd ev_bitmask engine s).2 = futures s
  ∧ _curl2future (process_data sockfd ev_bitmask engine s).2 = _curl2future s
  ∧ _curl2curl (process_data sockfd ev_bitmask engine s).2 = _curl2curl s.
Proof.
  intros Hc.
  assert (E : process_data sockfd ev_bitmask engine s
              = (Ok tt, upd_warnings (λ l, l ++ [closed_warning]) s)).
  { unfold process_data. unfold_m. by rewrite Hc. }
  by rewrite E.
Qed.

Lemma open_or_closed s : _curlm s ≠ None ∨ _curlm s = None.
Proof. destruct (_curlm s); [by left|by right]. Qed.

(** [close] leaves [_curlm] at [None]. *)
Lemma close_releases s : _curlm (close s).2 = None.
Proof.
  destruct (open_or_closed s) as [Ho|Hc].
  - by rewrite close_eq.
  - by rewrite close_closed.
Qed.

(** ** Single resolution *)

Lemma resolution_returns o s :
  is_resolution o = true → _curlm s ≠ None → (run_op o s).1 = Ok tt.
Proof.
  destruct o; try done; intros _ Ho; simpl.
  - by rewrite remove_handle_eq.
  - by rewrite set_result_eq.
  - by rewrite set_exception_eq.
  - by rewrite close_eq.
Qed.

Lemma resolution_refused o s :
  is_resolution o = true → _curlm s = None →
  (run_op o s).1 = Raise (TypeError none_for_pointer).
Proof.
  destruct o; try done; intros _ Hc; simpl.
  - by rewrite remove_handle_closed.
  - by rewrite set_result_closed.
  - by rewrite set_exception_closed.
  - by rewrite close_closed.
Qed.

(** C1: a future that has left [PENDING] keeps its state whatever the
    adapter does next, and every later attempt to resolve it, through
    [set_result], [set_exception], [remove_handle] or [close], leaves
    that state: the attempt never raises [InvalidStateError], and on an
    adapter that is still open it returns.  (On a closed adapter the
    binding refuses the native call the attempt starts with.) *)
Theorem future_resolved_at_most_once (s : State) (f : nat) (st : Future)
    (ops : list Op) (o : Op) :
  futures s !! f = Some st →
  is_terminal st = true →
  is_resolution o = true →
  futures (run ops s) !! f = Some st
  ∧ futures (run_op o (run ops s)).2 !! f = Some st
  ∧ (run_op o (run ops s)).1 ≠ Raise InvalidStateError
  ∧ (_curlm (run ops s) ≠ None → (run_op o (run ops s)).1 = Ok tt).
Proof.
  intros Hf Ht Ho.
  assert (H1 : futures (run ops s) !! f = Some st)
    by (by apply (keeps_terminal_run ops s)).
  split; [exact H1|]. split; [by apply (kt_run_op o (run ops s))|].
  split; [|by apply resolution_returns].
  destruct (open_or_closed (run ops s)) as [Hopen|Hclosed].
  - by rewrite resolution_returns.
  - by rewrite resolution_refused.
Qed.

(** ** close *)

Lemma elem_of_registry_futures (m : gmap Curl nat) curl f :
  m !! curl = Some f → f ∈ (map_to_list m).*2.
Proof.
  intros H. apply list_elem_of_fmap. exists (curl, f).
  split; [done|]. by apply elem_of_map_to_list.
Qed.


(** ** add_handle and remove_handle *)

Lemma add_handle_eq curl s :
  _curlm s ≠ None →
  add_handle curl s
  = (Ok (length (futures s)),
     upd_curl2curl (<[_curl curl := curl]>)
       (upd_curl2future (<[curl := length (futures s)]>)
          (upd_futures (λ l, l ++ [PENDING])
             (upd_lib_calls
                (λ l, (l ++ [curl_ensure_cacert curl])
                        ++ [curl_multi_add_handle (_curlm s) (_curl curl)])
                s)))).
Proof.
  intros Hopen. unfold add_handle. unfold_m. cbv beta iota.
  by rewrite lib_open by exact Hopen.
Qed.

Lemma run_add_handle curl s :
  (run_op (AddHandle curl) s).2 = (add_handle curl s).2.
Proof.
  simpl. unfold mbind, M_bind. by destruct (add_handle curl s) as [[f|e] s'].
Qed.

(** On a closed adapter [add_handle] stops at its native call, before a
    future is made: only [_ensure_cacert] has run. *)
Lemma add_handle_closed curl s :
  _curlm s = None →
  add_handle curl s
  = (Raise (TypeError none_for_pointer),
     upd_lib_calls (λ l, l ++ [curl_ensure_cacert curl]) s).
Proof.
  intros Hc. unfold add_handle. unfold_m. cbv beta iota.
  by rewrite lib_closed by exact Hc.
Qed.

(** C9, as the code has it: on an adapter that has not been closed,
    [add_handle] on a transfer that is in the
    registry does not fail; it returns a new pending future, which takes
    the transfer's place in the registry, and the future the transfer had
    is another one, left as it was. *)
Theorem add_handle_registered_again (s : State) (curl : Curl) (f0 : nat)
    (st0 : Future) :
  _curlm s ≠ None →
  _curl2future s !! curl = Some f0 →
  futures s !! f0 = Some st0 →
  ∃ f s',
    add_handle curl s = (Ok f, s')
    ∧ f ≠ f0
    ∧ futures s' !! f = Some PENDING
    ∧ _curl2future s' !! curl = Some f
    ∧ _curl2curl s' !! _curl curl = Some curl
    ∧ futures s' !! f0 = Some st0.
Proof.
  intros Hopen Hreg Hf0. eexists _, _. split; [by apply add_handle_eq|]. simpl.
  apply lookup_lt_Some in Hf0 as Hlt.
  repeat split.
  - lia.
  - by rewrite lookup_app_r, Nat.sub_diag.
  - apply lookup_insert_eq.
  - apply lookup_insert_eq.
  - by apply lookup_app_l_Some.
Qed.

(** C10, as the code has it: [remove_handle] on a transfer that neither
    mapping of the registry holds changes no future and neither mapping;
    on an adapter that has not been closed it returns without raising,
    on a closed one it raises the [TypeError] of the binding, which
    refuses [None] for the multi handle. *)
Theorem remove_handle_unregistered (s : State) (curl : Curl) :
  _curl2future s !! curl = None →
  _curl2curl s !! _curl curl = None →
  ∃ s',
    remove_handle curl s
    = (match _curlm s with
       | Some _ => Ok tt
       | None => Raise (TypeError none_for_pointer)
       end, s')
    ∧ futures s' = futures s
    ∧ _curl2future s' = _curl2future s
    ∧ _curl2curl s' = _curl2curl s.
Proof.
  intros H1 H2. destruct (_curlm s) as [m|] eqn:E.
  - exists (resolved curl CANCELLED s).
    split; [apply remove_handle_eq; by rewrite E|].
    unfold resolved. rewrite H1. simpl.
    repeat split; by apply delete_id.
  - exists s. split; [by apply remove_handle_closed|]. by repeat split.
Qed.

(** ** The drive loop *)

(** Steps that leave the loop and the multi handle alone. *)
Lemma same_loop_refl s : same_loop s s.
Proof. by repeat split. Qed.

Lemma same_loop_trans s1 s2 s3 :
  same_loop s1 s2 → same_loop s2 s3 → same_loop s1 s3.
Proof.
  intros (A1 & A2 & A3 & A4 & A5 & A6) (B1 & B2 & B3 & B4 & B5 & B6).
  repeat split; congruence.
Qed.

Lemma resolved_same_loop curl st s : same_loop s (resolved curl st s).
Proof.
  unfold resolved. destruct (_curl2future s !! curl) as [f|];
    [destruct (futures s !! f) as [[]|]|]; by repeat split.
Qed.

Abbreviation sl := (preserves same_loop).

Ltac sl_bind := apply (preserves_bind same_loop same_loop_trans).

Ltac sl_frame :=
  apply (preserves_modify same_loop); intros ?; by repeat split.

Lemma sl_lib call : sl (lib call).
Proof.
  intros s. unfold lib. destruct (_curlm s); by repeat split.
Qed.

Lemma sl_set_result curl : sl (set_result curl).
Proof.
  intros s. destruct (open_or_closed s) as [Ho|Hc].
  - rewrite set_result_eq by done. apply resolved_same_loop.
  - rewrite set_result_closed by done. apply same_loop_refl.
Qed.

Lemma sl_set_exception curl e : sl (set_exception curl e).
Proof.
  intros s. destruct (open_or_closed s) as [Ho|Hc].
  - rewrite set_exception_eq by done. apply resolved_same_loop.
  - rewrite set_exception_closed by done. apply same_loop_refl.
Qed.

Lemma sl_remove_handle curl : sl (remove_handle curl).
Proof.
  intros s. destruct (open_or_closed s) as [Ho|Hc].
  - rewrite remove_handle_eq by done. apply resolved_same_loop.
  - rewrite remove_handle_closed by done. apply same_loop_refl.
Qed.

Lemma sl_process_msg curl_msg : sl (process_msg curl_msg).
Proof.
  unfold process_msg. apply preserves_if; [|sl_frame].
  sl_bind; [apply preserves_gets, same_loop_refl|intros [curl|]].
  - apply preserves_if; [apply sl_set_result|apply sl_set_exception].
  - apply preserves_raise, same_loop_refl.
Qed.

Lemma sl_read_one curl_msg : sl (read_one curl_msg).
Proof.
  unfold read_one. sl_bind; [apply sl_lib|intros _; apply sl_process_msg].
Qed.

Lemma sl_info_read_loop queue : sl (info_read_loop queue).
Proof.
  induction queue as [|m q IH]; simpl; [apply sl_lib|].
  sl_bind; [apply sl_lib|intros _].
  sl_bind; [apply sl_process_msg|intros _; exact IH].
Qed.

Lemma sl_socket_action fd ev n : sl (socket_action fd ev n).
Proof.
  unfold socket_action.
  sl_bind; [apply sl_lib|intros _; apply preserves_ret, same_loop_refl].
Qed.

Lemma sl_drained_until fd ev n pre : sl (drained_until fd ev n pre).
Proof.
  unfold drained_until. sl_bind; [apply sl_socket_action|intros _].
  apply preserves_for;
    [apply same_loop_refl|apply same_loop_trans|apply sl_read_one].
Qed.

Lemma sl_process_data fd ev engine : sl (process_data fd ev engine).
Proof.
  unfold process_data.
  sl_bind; [apply preserves_gets, same_loop_refl|intros m].
  apply preserves_if; [sl_frame|].
  sl_bind; [apply sl_socket_action|intros _; apply sl_info_read_loop].
Qed.

Lemma truthy_ptr_live p : truthy_ptr p = true → p ≠ None.
Proof. by destruct p. Qed.

Lemma drained_until_open fd ev n pre s r s1 :
  truthy_ptr (_curlm s) = true →
  drained_until fd ev n pre s = (r, s1) →
  _curlm s1 ≠ None.
Proof.
  intros Hlive E. pose proof (sl_drained_until fd ev n pre s) as (Em & _).
  rewrite E in Em. cbn [snd] in Em. rewrite Em. by apply truthy_ptr_live.
Qed.

Lemma info_read_loop_app pre queue s :
  info_read_loop (pre ++ queue) s
  = match for_ pre read_one s with
    | (Ok _, s1) => info_read_loop queue s1
    | (Raise e, s1) => (Raise e, s1)
    end.
Proof.
  revert s. induction pre as [|m pre IH]; intros s; [done|].
  rewrite for_cons. simpl. unfold read_one. unfold mbind, M_bind.
  destruct (lib curl_multi_info_read s) as [[[]|e] s0]; [|done].
  destruct (process_msg m s0) as [[[]|e] s1]; [apply IH|done].
Qed.

Lemma process_data_split sockfd ev_bitmask n pre curl_msg post s :
  truthy_ptr (_curlm s) = true →
  process_data sockfd ev_bitmask
    {| running_handle := n; msg_queue := pre ++ curl_msg :: post |} s
  = match drained_until sockfd ev_bitmask n pre s with
    | (Ok _, s1) =>
        match read_one curl_msg s1 with
        | (Ok _, s2) => info_read_loop post s2
        | (Raise e, s2) => (Raise e, s2)
        end
    | (Raise e, s1) => (Raise e, s1)
    end.
Proof.
  intros Hlive. unfold process_data, drained_until.
  unfold mbind, M_bind, gets. rewrite Hlive.
  cbn [negb running_handle msg_queue].
  destruct (socket_action sockfd ev_bitmask n s) as [[r|e] s0]; [|done].
  rewrite info_read_loop_app.
  destruct (for_ pre read_one s0) as [[[]|e] s1]; [|done].
  simpl. unfold read_one. unfold mbind, M_bind.
  destruct (lib curl_multi_info_read s1) as [[[]|e] s2]; [|done].
  by destruct (process_msg curl_msg s2) as [[[]|e] s3].
Qed.

Lemma read_one_open curl_msg s :
  _curlm s ≠ None →
  read_one curl_msg s
  = process_msg curl_msg
      (upd_lib_calls (λ l, l ++ [curl_multi_info_read (_curlm s)]) s).
Proof.
  intros Ho. unfold read_one. unfold mbind, M_bind. by rewrite lib_open.
Qed.

Lemma process_msg_done curl_msg curl s :
  _curlm s ≠ None →
  msg curl_msg = CURLMSG_DONE →
  _curl2curl s !! easy_handle curl_msg = Some curl →
  process_msg curl_msg s
  = (Ok tt,
     resolved curl
       (if (data_result curl_msg =? 0)%Z then FINISHED_result PyNone
        else FINISHED_exception
               (CurlError curl (data_result curl_msg) "perform")) s).
Proof.
  intros Ho Hm Hreg. unfold process_msg. rewrite Hm. unfold_m. simpl.
  rewrite Hreg. destruct (data_result curl_msg =? 0)%Z.
  - by apply set_result_eq.
  - by apply set_exception_eq.
Qed.

Lemma process_msg_unregistered curl_msg s :
  msg curl_msg = CURLMSG_DONE →
  _curl2curl s !! easy_handle curl_msg = None →
  process_msg curl_msg s = (Raise (KeyError (easy_handle curl_msg)), s).
Proof.
  intros Hm Hreg. unfold process_msg. rewrite Hm. unfold_m. simpl.
  by rewrite Hreg.
Qed.

Lemma resolved_pending curl f st s :
  _curl2future s !! curl = Some f →
  futures s !! f = Some PENDING →
  futures (resolved curl st s) !! f = Some st.
Proof.
  intros Hreg Hp. unfold resolved. rewrite Hreg, Hp. simpl.
  apply list_lookup_insert_eq. by eapply lookup_lt_Some.
Qed.

(** C4: when [process_data] reads a transfer-done message for a native
    handle the registry knows, whose future is pending, the call leaves
    that future finished: with the result [None] when the status code is
    0, and otherwise with the exception [curl._get_error(retcode,
    "perform")], which carries that code and the operation name; whatever
    the rest of the queue holds. *)
Theorem process_data_resolves_done (s s1 : State) (sockfd ev_bitmask n : Z)
    (pre post : list CURLMsg) (curl_msg : CURLMsg) (curl : Curl) (f : nat) :
  truthy_ptr (_curlm s) = true →
  msg curl_msg = CURLMSG_DONE →
  drained_until sockfd ev_bitmask n pre s = (Ok tt, s1) →
  _curl2curl s1 !! easy_handle curl_msg = Some curl →
  _curl2future s1 !! curl = Some f →
  futures s1 !! f = Some PENDING →
  futures (process_data sockfd ev_bitmask
             {| running_handle := n; msg_queue := pre ++ curl_msg :: post |}
             s).2 !! f
  = Some (if (data_result curl_msg =? 0)%Z then FINISHED_result PyNone
          else FINISHED_exception
                 (CurlError curl (data_result curl_msg) "perform")).
Proof.
  intros Hlive Hm Hpre Hh Hreg Hp.
  pose proof (drained_until_open _ _ _ _ _ _ _ Hlive Hpre) as Hopen.
  rewrite process_data_split, Hpre by done.
  rewrite read_one_open by done.
  rewrite (process_msg_done curl_msg curl) by done.
  apply (kt_info_read_loop post).
  - by apply resolved_pending.
  - by destruct (data_result curl_msg =? 0)%Z.
Qed.

(** The same message for a native handle the registry does not know
    ends the call with [KeyError]; the messages behind it are not read. *)
Lemma process_data_unknown_handle sockfd ev_bitmask n pre curl_msg post s s1 :
  truthy_ptr (_curlm s) = true →
  msg curl_msg = CURLMSG_DONE →
  drained_until sockfd ev_bitmask n pre s = (Ok tt, s1) →
  _curl2curl s1 !! easy_handle curl_msg = None →
  process_data sockfd ev_bitmask
    {| running_handle := n; msg_queue := pre ++ curl_msg :: post |} s
  = (Raise (KeyError (easy_handle curl_msg)),
     upd_lib_calls (λ l, l ++ [curl_multi_info_read (_curlm s1)]) s1).
Proof.
  intros Hlive Hm Hpre Hh.
  pose proof (drained_until_open _ _ _ _ _ _ _ Hlive Hpre) as Hopen.
  rewrite process_data_split, Hpre by done.
  rewrite read_one_open by done.
  by rewrite process_msg_unregistered.
Qed.

(** C2: on a duplicate transfer-done message [process_data] raises
    [KeyError] for the native handle that is no longer in the registry,
    and the message behind it is never read: the second transfer stays
    pending. *)
Theorem process_data_duplicate_done_raises :
  (process_data 7 CURL_CSELECT_IN duplicate_done two_transfers).1
  = Raise (KeyError 100)
  ∧ futures (process_data 7 CURL_CSELECT_IN duplicate_done two_transfers).2
    = [FINISHED_result PyNone; PENDING]
  ∧ _curl2future (process_data 7 CURL_CSELECT_IN duplicate_done two_transfers).2
      !! curl_B = Some 1.
Proof. by vm_compute. Qed.

(** ** The registry *)

Lemma keeps_consistent_refl s : keeps_consistent s s.
Proof. by intros H. Qed.

Lemma keeps_consistent_trans s1 s2 s3 :
  keeps_consistent s1 s2 → keeps_consistent s2 s3 → keeps_consistent s1 s3.
Proof. intros H12 H23 H. by apply H23, H12. Qed.

Lemma keeps_consistent_same s s' :
  _curl2curl s' = _curl2curl s → _curl2future s' = _curl2future s →
  keeps_consistent s s'.
Proof. intros E1 E2 H h curl. rewrite E1, E2. apply H. Qed.

Abbreviation kc := (preserves keeps_consistent).

Ltac kc_bind :=
  apply (preserves_bind keeps_consistent keeps_consistent_trans).

Ltac kc_frame :=
  apply (preserves_modify keeps_consistent); intros ?;
  apply keeps_consistent_same; reflexivity.

Lemma registry_consistent_init curlm : registry_consistent (init curlm).
Proof. intros h curl H. simpl in H. by rewrite lookup_empty in H. Qed.

Lemma registry_consistent_popped curl s :
  registry_consistent s → registry_consistent (popped curl s).
Proof.
  intros H h c. simpl. intros Hh.
  apply lookup_delete_Some in Hh as [Hne Hh].
  destruct (H h c Hh) as [<- Hc]. split; [done|].
  rewrite lookup_delete_ne; [done|]. by intros ->.
Qed.

Lemma registry_consistent_resolved curl st s :
  registry_consistent s → registry_consistent (resolved curl st s).
Proof.
  intros H. apply (registry_consistent_popped curl) in H.
  unfold resolved. destruct (_curl2future s !! curl) as [f|]; [|done].
  by destruct (futures s !! f) as [[]|].
Qed.

Lemma registry_consistent_add_handle curl s :
  registry_consistent s → registry_consistent (add_handle curl s).2.
Proof.
  intros H. destruct (open_or_closed s) as [Ho|Hcl].
  - intros h c. rewrite add_handle_eq by done. simpl. intros Hh.
    apply lookup_insert_Some in Hh as [[<- <-]|[Hne Hh]].
    + split; [done|]. rewrite lookup_insert_eq. by eexists.
    + destruct (H h c Hh) as [<- Hc]. split; [done|].
      rewrite lookup_insert_ne; [done|]. by intros ->.
  - by rewrite add_handle_closed.
Qed.

Lemma kc_lib call : kc (lib call).
Proof.
  intros s. unfold lib. destruct (_curlm s);
    [apply keeps_consistent_same; reflexivity|apply keeps_consistent_refl].
Qed.

Lemma kc_set_result curl : kc (set_result curl).
Proof.
  intros s H. destruct (open_or_closed s) as [Ho|Hc].
  - rewrite set_result_eq by done. by apply registry_consistent_resolved.
  - by rewrite set_result_closed.
Qed.

Lemma kc_set_exception curl e : kc (set_exception curl e).
Proof.
  intros s H. destruct (open_or_closed s) as [Ho|Hc].
  - rewrite set_exception_eq by done. by apply registry_consistent_resolved.
  - by rewrite set_exception_closed.
Qed.

Lemma kc_remove_handle curl : kc (remove_handle curl).
Proof.
  intros s H. destruct (open_or_closed s) as [Ho|Hc].
  - rewrite remove_handle_eq by done. by apply registry_consistent_resolved.
  - by rewrite remove_handle_closed.
Qed.

Lemma kc_close : kc close.
Proof.
  intros s H. destruct (open_or_closed s) as [Ho|Hc].
  - by rewrite close_eq.
  - by rewrite close_closed.
Qed.

Lemma kc_process_msg curl_msg : kc (process_msg curl_msg).
Proof.
  unfold process_msg. apply preserves_if; [|kc_frame].
  kc_bind; [apply preserves_gets, keeps_consistent_refl|intros [curl|]].
  - apply preserves_if; [apply kc_set_result|apply kc_set_exception].
  - apply preserves_raise, keeps_consistent_refl.
Qed.

Lemma kc_info_read_loop queue : kc (info_read_loop queue).
Proof.
  induction queue as [|m q IH]; simpl; [apply kc_lib|].
  kc_bind; [apply kc_lib|intros _].
  kc_bind; [apply kc_process_msg|intros _; exact IH].
Qed.

Lemma kc_process_data fd ev engine : kc (process_data fd ev engine).
Proof.
  unfold process_data.
  kc_bind; [apply preserves_gets, keeps_consistent_refl|intros m].
  apply preserves_if; [kc_frame|].
  kc_bind; [|intros _; apply kc_info_read_loop].
  unfold socket_action.
  kc_bind; [apply kc_lib|intros _; apply preserves_ret, keeps_consistent_refl].
Qed.

Lemma kc_timer_function ms : kc (timer_function ms).
Proof.
  unfold timer_function. apply preserves_if.
  - kc_bind; [apply preserves_gets, keeps_consistent_refl|intros ts].
    kc_bind; [|intros _; kc_frame].
    apply preserves_for;
      [apply keeps_consistent_refl|apply keeps_consistent_trans|].
    intros t. kc_frame.
  - kc_bind; [|intros t; kc_frame].
    intros s. apply keeps_consistent_same; reflexivity.
Qed.

Lemma kc_socket_function fd what : kc (socket_function fd what).
Proof.
  unfold socket_function.
  kc_bind; [|intros _].
  { apply preserves_if; [|apply preserves_ret, keeps_consistent_refl].
    kc_bind; [apply preserves_gets, keeps_consistent_refl|intros tracked].
    apply preserves_if.
    - kc_bind; [kc_frame|intros _].
      kc_bind; [kc_frame|intros _].
      intros s. unfold sockfds_remove. case_bool_decide; simpl;
        [apply keeps_consistent_same; reflexivity|apply keeps_consistent_refl].
    - apply preserves_if;
        [apply preserves_raise|apply preserves_ret];
        apply keeps_consistent_refl. }
  kc_bind; [|intros _].
  { apply preserves_if; [|apply preserves_ret, keeps_consistent_refl].
    kc_bind; [kc_frame|intros _; kc_frame]. }
  apply preserves_if; [|apply preserves_ret, keeps_consistent_refl].
  kc_bind; [kc_frame|intros _; kc_frame].
Qed.

Lemma kc_run_op o : kc (run_op o).
Proof.
  destruct o; intros s H; [rewrite run_add_handle|simpl..].
  - by apply registry_consistent_add_handle.
  - by apply kc_remove_handle.
  - by apply kc_set_result.
  - by apply kc_set_exception.
  - by apply kc_close.
  - by apply kc_process_data.
  - by apply kc_timer_function.
  - by apply kc_socket_function.
Qed.

Lemma registry_consistent_run ops curlm :
  registry_consistent (run ops (init curlm)).
Proof.
  assert (H : ∀ s, registry_consistent s → registry_consistent (run ops s)).
  { induction ops as [|o ops IH]; intros s Hs; simpl; [done|].
    by apply IH, kc_run_op. }
  apply H, registry_consistent_init.
Qed.

(** In a state the adapter can reach, a transfer that is not in
    [_curl2future] has no entry in [_curl2curl] either, unless another
    [Curl] object of the registry has the same native handle. *)
Lemma unregistered_in_both ops curlm curl :
  _curl2future (run ops (init curlm)) !! curl = None →
  (∀ curl', is_Some (_curl2future (run ops (init curlm)) !! curl') →
            _curl curl' = _curl curl → curl' = curl) →
  _curl2curl (run ops (init curlm)) !! _curl curl = None.
Proof.
  intros Hnone Hinj.
  destruct (_curl2curl (run ops (init curlm)) !! _curl curl)
    as [curl'|] eqn:E; [|done].
  destruct (registry_consistent_run ops curlm _ _ E) as [Hh Hreg].
  rewrite (Hinj curl' Hreg Hh), Hnone in Hreg.
  by destruct Hreg.
Qed.

(** ** Concrete runs *)

Lemma future_resolved_at_most_once_witness :
  futures (run [TimerFunction 500; SocketFunction 7 CURL_POLL_IN]
             caller_cancelled) !! 0
  = Some CANCELLED
  ∧ futures
      (run_op (SetResult curl_A)
         (run [TimerFunction 500; SocketFunction 7 CURL_POLL_IN]
            caller_cancelled)).2 !! 0
    = Some CANCELLED
  ∧ (run_op (SetResult curl_A)
       (run [TimerFunction 500; SocketFunction 7 CURL_POLL_IN]
          caller_cancelled)).1
    = Ok tt.
Proof.
  destruct (future_resolved_at_most_once caller_cancelled 0 CANCELLED
              [TimerFunction 500; SocketFunction 7 CURL_POLL_IN]
              (SetResult curl_A)) as (H1 & H2 & _ & H4); [reflexivity..|].
  split; [exact H1|]. split; [exact H2|]. apply H4. by vm_compute.
Defined.



Lemma process_data_resolves_done_witness :
  futures
    (process_data 7 CURL_CSELECT_IN
       {| running_handle := 1; msg_queue := [DONE 100 0] ++ DONE 200 28 :: [] |}
       two_transfers).2 !! 1
  = Some (FINISHED_exception (CurlError curl_B 28 "perform")).
Proof.
  apply (process_data_resolves_done two_transfers
           (drained_until 7 CURL_CSELECT_IN 1 [DONE 100 0] two_transfers).2
           7 CURL_CSELECT_IN 1 [DONE 100 0] [] (DONE 200 28) curl_B 1);
    by vm_compute.
Defined.

Lemma socket_function_remove_untracked_raises_witness :
  socket_function 9 CURL_POLL_REMOVE watching
  = (Raise (TypeError (fd_not_found 9)), watching).
Proof.
  apply socket_function_remove_untracked_raises; by vm_compute.
Defined.

(** On [watching], the remove call for descriptor 7 returns; the same
    call made again raises [TypeError]. *)
Lemma socket_function_remove_twice_raises :
  7%Z ∈ _sockfds watching
  ∧ (socket_function 7 CURL_POLL_REMOVE watching).1 = Ok tt
  ∧ (socket_function 7 CURL_POLL_REMOVE
       (socket_function 7 CURL_POLL_REMOVE watching).2).1
    = Raise (TypeError "File descriptor 7 not found.").
Proof. by vm_compute. Qed.

Lemma socket_function_remove_tracked_witness :
  ∃ s',
    socket_function 7 CURL_POLL_REMOVE watching = (Ok tt, s')
    ∧ readers s' !! 7%Z = None
    ∧ writers s' !! 7%Z = None
    ∧ socket_function 7 CURL_POLL_REMOVE s'
      = (Raise (TypeError (fd_not_found 7)), s').
Proof.
  destruct (socket_function_remove_tracked watching 7 CURL_POLL_REMOVE)
    as (s' & E & Hr & Hw & _ & _ & Hagain); [by vm_compute..|].
  exists s'. split; [exact E|]. split; [exact Hr|]. split; [exact Hw|].
  exact Hagain.
Defined.

Lemma timer_function_cancels_all_witness :
  ∃ s',
    timer_function (-1) busy = (Ok tt, s')
    ∧ _timers s' = []
    ∧ scheduled s' !! 0
      = Some {| delay_ms := 500;
                timer_args := (CURL_SOCKET_TIMEOUT, CURL_POLL_NONE);
                timer_cancelled := true |}
    ∧ futures s' = [PENDING; PENDING].
Proof.
  destruct (timer_function_cancels_all busy) as (s' & E & Ht & Hc & Hf & _).
  exists s'. split; [exact E|]. split; [exact Ht|]. split.
  - apply (Hc 0 {| delay_ms := 500;
                   timer_args := (CURL_SOCKET_TIMEOUT, CURL_POLL_NONE);
                   timer_cancelled := false |});
      [vm_compute; constructor|by vm_compute].
  - exact Hf.
Defined.

Lemma process_data_after_close_witness :
  process_data 7 CURL_CSELECT_IN duplicate_done (run [Close] two_transfers)
  = (Ok tt,
     upd_warnings (λ l, l ++ [closed_warning]) (run [Close] two_transfers)).
Proof.
  apply (process_data_after_close (run [Close] two_transfers)).
  reflexivity.
Defined.

(** On [registered], [add_handle] for the same transfer returns a second
    future. *)
Lemma add_handle_twice_returns :
  _curl2future registered !! curl_A = Some 0
  ∧ (add_handle curl_A registered).1 = Ok 1
  ∧ futures (add_handle curl_A registered).2 = [PENDING; PENDING]
  ∧ _curl2future (add_handle curl_A registered).2 !! curl_A = Some 1.
Proof. by vm_compute. Qed.

Lemma add_handle_registered_again_witness :
  ∃ f s',
    add_handle curl_A registered = (Ok f, s')
    ∧ f ≠ 0
    ∧ futures s' !! f = Some PENDING
    ∧ _curl2future s' !! curl_A = Some f
    ∧ _curl2curl s' !! 100%Z = Some curl_A
    ∧ futures s' !! 0 = Some PENDING.
Proof.
  apply (add_handle_registered_again registered curl_A 0 PENDING);
    by vm_compute.
Defined.

(** After [close], [remove_handle] on a transfer that never was in the
    registry raises. *)
Lemma remove_handle_after_close_raises :
  _curl2future (run [Close] registered) !! curl_B = None
  ∧ _curl2curl (run [Close] registered) !! _curl curl_B = None
  ∧ remove_handle curl_B (run [Close] registered)
    = (Raise (TypeError none_for_pointer), run [Close] registered).
Proof. by vm_compute. Qed.

Lemma remove_handle_unregistered_witness :
  ∃ s',
    remove_handle curl_B registered = (Ok tt, s')
    ∧ futures s' = futures registered
    ∧ _curl2future s' = _curl2future registered
    ∧ _curl2curl s' = _curl2curl registered.
Proof.
  apply (remove_handle_unregistered registered curl_B); by vm_compute.
Defined.

(** * Further properties *)

(** ** The callbacks, case by case *)

Lemma socket_function_no_bits s sockfd what :
  truthy (Z.land what CURL_POLL_IN) = false →
  truthy (Z.land what CURL_POLL_OUT) = false →
  truthy (Z.land what CURL_POLL_REMOVE) = false →
  socket_function sockfd what s = (Ok tt, s).
Proof.
  intros Hrd Hwr Hrm. unfold socket_function. unfold_m.
  by rewrite Hrd, Hwr, Hrm.
Qed.

Lemma socket_function_untracked_watch s sockfd what :
  sockfd ∉ _sockfds s →
  truthy (Z.land what CURL_POLL_REMOVE) = false →
  socket_function sockfd what s = (Ok tt, watched sockfd what s).
Proof.
  intros Hnin Hrm.
  destruct s as [m c2f c2c fds ts ck rd wr sch futs calls ws out].
  simpl in Hnin.
  unfold socket_function, watched, sockfds_remove, sockfds_add,
    loop_remove_reader, loop_remove_writer, loop_add_reader, loop_add_writer.
  unfold_m. rewrite Hrm.
  destruct (truthy (Z.land what CURL_POLL_IN)),
    (truthy (Z.land what CURL_POLL_OUT)); red_state;
    rewrite ?bool_decide_eq_false_2 by done; red_state;
    try reflexivity.
  do 2 f_equal. set_solver.
Qed.

Lemma timer_function_schedule_eq timeout_ms s :
  timeout_ms ≠ (-1)%Z →
  timer_function timeout_ms s
  = (Ok tt,
     upd_timers (λ l, l ++ [length (scheduled s)])
       (upd_scheduled (λ l, l ++ [timeout_timer timeout_ms]) s)).
Proof.
  intros Hne. unfold timer_function.
  by rewrite (proj2 (Z.eqb_neq _ _) Hne).
Qed.

(** ** Steps that leave a part of the state alone *)

Lemma same_registry_refl s : same_registry s s.
Proof. by repeat split. Qed.

Lemma same_registry_trans s1 s2 s3 :
  same_registry s1 s2 → same_registry s2 s3 → same_registry s1 s3.
Proof.
  intros (A1 & A2 & A3 & A4) (B1 & B2 & B3 & B4).
  repeat split; congruence.
Qed.

Lemma keeps_refl I s : keeps I s s.
Proof. by intros H. Qed.

Lemma keeps_trans I s1 s2 s3 : keeps I s1 s2 → keeps I s2 s3 → keeps I s1 s3.
Proof. intros H12 H23 H. by apply H23, H12. Qed.

(** The projections of the state a guarded resolution leaves. *)
Lemma resolved_curlm curl st s : _curlm (resolved curl st s) = _curlm s.
Proof.
  unfold resolved. destruct (_curl2future s !! curl) as [f|]; [|done].
  by destruct (futures s !! f) as [[]|].
Qed.

Lemma resolved_curl2future curl st s :
  _curl2future (resolved curl st s) = delete curl (_curl2future s).
Proof.
  unfold resolved. destruct (_curl2future s !! curl) as [f|]; [|done].
  by destruct (futures s !! f) as [[]|].
Qed.

Lemma resolved_curl2curl curl st s :
  _curl2curl (resolved curl st s) = delete (_curl curl) (_curl2curl s).
Proof.
  unfold resolved. destruct (_curl2future s !! curl) as [f|]; [|done].
  by destruct (futures s !! f) as [[]|].
Qed.

Lemma resolved_futures curl st s :
  futures (resolved curl st s)
  = match _curl2future s !! curl with
    | Some f =>
        match futures s !! f with
        | Some PENDING => <[f := st]> (futures s)
        | _ => futures s
        end
    | None => futures s
    end.
Proof.
  unfold resolved. destruct (_curl2future s !! curl) as [f|]; [|done].
  by destruct (futures s !! f) as [[]|].
Qed.

Lemma add_handle_same_loop curl s : same_loop s (add_handle curl s).2.
Proof.
  destruct (open_or_closed s) as [Ho|Hc].
  - rewrite add_handle_eq by done. by repeat split.
  - rewrite add_handle_closed by done. by repeat split.
Qed.

(** The socket callback, in each of its four cases. *)
Lemma socket_function_cases s sockfd what :
  socket_function sockfd what s = (Ok tt, s)
  ∨ (sockfd ∈ _sockfds s
     ∧ socket_function sockfd what s = (Ok tt, rewatched sockfd what s))
  ∨ ((sockfd ∉ _sockfds s)
     ∧ socket_function sockfd what s
       = (Raise (TypeError (fd_not_found sockfd)), s))
  ∨ ((sockfd ∉ _sockfds s)
     ∧ truthy (Z.land what CURL_POLL_IN) || truthy (Z.land what CURL_POLL_OUT)
       = true
     ∧ socket_function sockfd what s = (Ok tt, watched sockfd what s)).
Proof.
  destruct (truthy (Z.land what CURL_POLL_REMOVE)) eqn:Hrm.
  - destruct (decide (sockfd ∈ _sockfds s)) as [Hin|Hnin].
    + right; left. split; [done|].
      apply socket_function_tracked; [done|]. by rewrite Hrm, orb_true_r.
    + right; right; left. split; [done|].
      by apply socket_function_untracked_remove.
  - destruct (truthy (Z.land what CURL_POLL_IN)
              || truthy (Z.land what CURL_POLL_OUT)) eqn:Hany.
    + destruct (decide (sockfd ∈ _sockfds s)) as [Hin|Hnin].
      * right; left. split; [done|].
        apply socket_function_tracked; [done|]. by rewrite Hany.
      * right; right; right. split; [done|]. split; [done|].
        by apply socket_function_untracked_watch.
    + left. apply orb_false_elim in Hany as [Hrd Hwr].
      by apply socket_function_no_bits.
Qed.

Lemma socket_function_same_registry sockfd what s :
  same_registry s (socket_function sockfd what s).2.
Proof.
  destruct (socket_function_cases s sockfd what)
    as [E|[[_ E]|[[_ E]|(_ & _ & E)]]]; rewrite E; by repeat split.
Qed.

Lemma socket_function_same_timers sockfd what s :
  _timers (socket_function sockfd what s).2 = _timers s
  ∧ scheduled (socket_function sockfd what s).2 = scheduled s.
Proof.
  destruct (socket_function_cases s sockfd what)
    as [E|[[_ E]|[[_ E]|(_ & _ & E)]]]; rewrite E; by repeat split.
Qed.

Lemma socket_function_same_curlm sockfd what s :
  _curlm (socket_function sockfd what s).2 = _curlm s.
Proof. apply socket_function_same_registry. Qed.

Lemma timer_function_eq timeout_ms s :
  timer_function timeout_ms s
  = (Ok tt,
     if (timeout_ms =? -1)%Z
     then upd_timers (λ _, []) (upd_scheduled (cancel_all (_timers s)) s)
     else upd_timers (λ l, l ++ [length (scheduled s)])
            (upd_scheduled (λ l, l ++ [timeout_timer timeout_ms]) s)).
Proof.
  destruct (timeout_ms =? -1)%Z eqn:E.
  - apply Z.eqb_eq in E as ->. apply timer_function_cancel_eq.
  - apply timer_function_schedule_eq. by apply Z.eqb_neq.
Qed.

Lemma timer_function_same_registry timeout_ms s :
  same_registry s (timer_function timeout_ms s).2.
Proof.
  rewrite timer_function_eq. destruct (timeout_ms =? -1)%Z; by repeat split.
Qed.

Lemma timer_function_same_watches timeout_ms s :
  _sockfds (timer_function timeout_ms s).2 = _sockfds s
  ∧ readers (timer_function timeout_ms s).2 = readers s
  ∧ writers (timer_function timeout_ms s).2 = writers s.
Proof.
  rewrite timer_function_eq. destruct (timeout_ms =? -1)%Z; by repeat split.
Qed.

(** ** The registry the adapter keeps *)

Lemma registry_wf_same s s' :
  same_registry s s' → registry_wf s → registry_wf s'.
Proof.
  intros (E1 & E2 & E3 & E4) (Hc & Hi & Hb & Hp).
  unfold registry_wf, registry_consistent. rewrite E1, E2, E3, E4.
  exact (conj Hc (conj Hi (conj Hb Hp))).
Qed.

Lemma registry_wf_init curlm : registry_wf (init curlm).
Proof.
  split; [apply registry_consistent_init|].
  repeat split; intros *; cbn [init _curl2future]; by rewrite ?lookup_empty.
Qed.

Lemma registry_wf_add_handle curl s :
  registry_wf s → registry_wf (add_handle curl s).2.
Proof.
  intros (Hc & Hi & Hb & Hp).
  split; [by apply registry_consistent_add_handle|].
  destruct (open_or_closed s) as [Ho|Hcl];
    [|rewrite add_handle_closed by done; exact (conj Hi (conj Hb Hp))].
  rewrite add_handle_eq by done. cbn [snd].
  red_state. fold (_curl2future s) (futures s) (_curlm s).
  split; [|split].
  - intros c1 c2 f H1 H2.
    apply lookup_insert_Some in H1 as [[<- <-]|[Hne1 H1]];
      apply lookup_insert_Some in H2 as [[<- E]|[Hne2 H2]]; try done.
    + apply Hb in H2. lia.
    + apply Hb in H1. lia.
    + by eapply Hi.
  - intros c f H. rewrite length_app. simpl.
    apply lookup_insert_Some in H as [[_ <-]|[_ H]]; [lia|].
    apply Hb in H. lia.
  - intros Hlive c f H.
    apply lookup_insert_Some in H as [[_ <-]|[_ H]].
    + by rewrite lookup_app_r, Nat.sub_diag.
    + apply lookup_app_l_Some. by eapply Hp.
Qed.

Lemma registry_wf_resolved curl st s :
  registry_wf s → registry_wf (resolved curl st s).
Proof.
  intros (Hc & Hi & Hb & Hp).
  split; [by apply registry_consistent_resolved|].
  rewrite resolved_curlm, resolved_curl2future, resolved_futures.
  split; [|split].
  - intros c1 c2 f H1 H2.
    apply lookup_delete_Some in H1 as [_ H1].
    apply lookup_delete_Some in H2 as [_ H2]. by eapply Hi.
  - intros c f H. apply lookup_delete_Some in H as [_ H]. apply Hb in H.
    destruct (_curl2future s !! curl) as [g|]; [|done].
    destruct (futures s !! g) as [[]|]; by rewrite ?length_insert.
  - intros Hlive c f H. apply lookup_delete_Some in H as [Hne H].
    specialize (Hp Hlive c f H).
    destruct (_curl2future s !! curl) as [g|] eqn:Eg; [|done].
    destruct (futures s !! g) as [[]|]; try done.
    rewrite list_lookup_insert_ne; [done|].
    intros ->. apply Hne. by eapply Hi.
Qed.

Lemma resolve_all_length fs futs :
  length (foldl resolve_pending futs fs) = length futs.
Proof.
  revert futs. induction fs as [|f fs IH]; intros futs; [done|].
  simpl. rewrite IH. unfold resolve_pending.
  destruct (futs !! f) as [[]|]; by rewrite ?length_insert.
Qed.

Lemma closed_futures s :
  futures (closed s)
  = foldl resolve_pending (futures s) (map_to_list (_curl2future s)).*2.
Proof. reflexivity. Qed.

Lemma registry_wf_closed s : registry_wf s → registry_wf (closed s).
Proof.
  intros (Hc & Hi & Hb & Hp).
  split; [|split; [|split]].
  - exact Hc.
  - exact Hi.
  - intros c f H. rewrite closed_futures, resolve_all_length.
    by eapply Hb.
  - intros Hlive. by destruct Hlive.
Qed.

Abbreviation kw := (preserves (keeps registry_wf)).

Ltac kw_bind :=
  apply (preserves_bind (keeps registry_wf) (keeps_trans registry_wf)).

Ltac kw_frame :=
  apply (preserves_modify (keeps registry_wf)); intros ?; unfold keeps;
  apply registry_wf_same; by repeat split.

Lemma kw_lib call : kw (lib call).
Proof.
  intros s. unfold lib. destruct (_curlm s) eqn:E; [|apply keeps_refl].
  unfold keeps. apply registry_wf_same. by repeat split.
Qed.

Lemma kw_remove_handle curl : kw (remove_handle curl).
Proof.
  intros s H. destruct (open_or_closed s) as [Ho|Hc].
  - rewrite remove_handle_eq by done. by apply registry_wf_resolved.
  - by rewrite remove_handle_closed.
Qed.

Lemma kw_set_result curl : kw (set_result curl).
Proof.
  intros s H. destruct (open_or_closed s) as [Ho|Hc].
  - rewrite set_result_eq by done. by apply registry_wf_resolved.
  - by rewrite set_result_closed.
Qed.

Lemma kw_set_exception curl e : kw (set_exception curl e).
Proof.
  intros s H. destruct (open_or_closed s) as [Ho|Hc].
  - rewrite set_exception_eq by done. by apply registry_wf_resolved.
  - by rewrite set_exception_closed.
Qed.

Lemma kw_close : kw close.
Proof.
  intros s H. destruct (open_or_closed s) as [Ho|Hc].
  - rewrite close_eq by done. by apply registry_wf_closed.
  - rewrite close_closed by done. revert H.
    apply registry_wf_same. by repeat split.
Qed.

Lemma kw_process_msg curl_msg : kw (process_msg curl_msg).
Proof.
  unfold process_msg. apply preserves_if; [|kw_frame].
  kw_bind; [apply preserves_gets, keeps_refl|intros [curl|]].
  - apply preserves_if; [apply kw_set_result|apply kw_set_exception].
  - apply preserves_raise, keeps_refl.
Qed.

Lemma kw_info_read_loop queue : kw (info_read_loop queue).
Proof.
  induction queue as [|m q IH]; simpl; [apply kw_lib|].
  kw_bind; [apply kw_lib|intros _].
  kw_bind; [apply kw_process_msg|intros _; exact IH].
Qed.

Lemma kw_process_data fd ev engine : kw (process_data fd ev engine).
Proof.
  unfold process_data.
  kw_bind; [apply preserves_gets, keeps_refl|intros m].
  apply preserves_if; [kw_frame|].
  kw_bind; [|intros _; apply kw_info_read_loop].
  unfold socket_action.
  kw_bind; [apply kw_lib|intros _; apply preserves_ret, keeps_refl].
Qed.

Lemma registry_wf_run_op o s : registry_wf s → registry_wf (run_op o s).2.
Proof.
  intros H. destruct o.
  - rewrite run_add_handle. by apply registry_wf_add_handle.
  - by apply kw_remove_handle.
  - by apply kw_set_result.
  - by apply kw_set_exception.
  - by apply kw_close.
  - by apply kw_process_data.
  - revert H. apply registry_wf_same, timer_function_same_registry.
  - revert H. apply registry_wf_same, socket_function_same_registry.
Qed.

Lemma registry_wf_run ops s : registry_wf s → registry_wf (run ops s).
Proof.
  revert s. induction ops as [|o ops IH]; intros s H; [done|].
  simpl. by apply IH, registry_wf_run_op.
Qed.

(** X1: in every state the adapter reaches from [__init__], each native
    handle of the registry leads to the transfer that owns it, no two
    transfers share a future, every registered future exists, and until
    [close] every registered future is pending. *)
Theorem registry_wf_reachable (ops : list Op) (curlm : Z) :
  registry_wf (run ops (init curlm)).
Proof. apply registry_wf_run, registry_wf_init. Qed.

(** ** The watches and timers the adapter keeps *)

Lemma watches_tracked_same s s' :
  _curlm s' = _curlm s → _sockfds s' = _sockfds s →
  readers s' = readers s → writers s' = writers s →
  watches_tracked s → watches_tracked s'.
Proof.
  intros E1 E2 E3 E4 H. unfold watches_tracked.
  by rewrite E1, E2, E3, E4.
Qed.

Lemma watches_tracked_same_loop s s' :
  same_loop s s' → watches_tracked s → watches_tracked s'.
Proof.
  intros (E1 & E2 & E3 & E4 & _). by apply watches_tracked_same.
Qed.

Lemma timers_tracked_same s s' :
  _timers s' = _timers s → scheduled s' = scheduled s →
  timers_tracked s → timers_tracked s'.
Proof. intros E1 E2 H. unfold timers_tracked. by rewrite E1, E2. Qed.

Lemma timers_tracked_same_loop s s' :
  same_loop s s' → timers_tracked s → timers_tracked s'.
Proof.
  intros (_ & _ & _ & _ & E5 & E6). by apply timers_tracked_same.
Qed.

Lemma watched_readers sockfd what s :
  readers (watched sockfd what s)
  = if truthy (Z.land what CURL_POLL_IN)
    then <[sockfd := (sockfd, CURL_CSELECT_IN)]> (readers s)
    else readers s.
Proof. reflexivity. Qed.

Lemma watched_writers sockfd what s :
  writers (watched sockfd what s)
  = if truthy (Z.land what CURL_POLL_OUT)
    then <[sockfd := (sockfd, CURL_CSELECT_OUT)]> (writers s)
    else writers s.
Proof. reflexivity. Qed.

Lemma watched_sockfds sockfd what s :
  _sockfds (watched sockfd what s)
  = if truthy (Z.land what CURL_POLL_IN) || truthy (Z.land what CURL_POLL_OUT)
    then {[sockfd]} ∪ _sockfds s
    else _sockfds s.
Proof. reflexivity. Qed.

Lemma is_Some_insert_iff {V} (m : gmap Z V) k v k' :
  is_Some (<[k := v]> m !! k') ↔ k' = k ∨ is_Some (m !! k').
Proof.
  destruct (decide (k = k')) as [->|Hne].
  - rewrite lookup_insert_eq. split; [by left|by eexists].
  - rewrite lookup_insert_ne by done. split; [by right|].
    intros [->|H]; done.
Qed.

Lemma is_Some_delete_iff {V} (m : gmap Z V) k k' :
  is_Some (delete k m !! k') ↔ k' ≠ k ∧ is_Some (m !! k').
Proof.
  destruct (decide (k = k')) as [->|Hne].
  - rewrite lookup_delete_eq. split; [by intros [? ?]|by intros [? _]].
  - rewrite lookup_delete_ne by done. split; [by split|by intros [_ ?]].
Qed.

Lemma watches_tracked_rewatched sockfd what s :
  watches_tracked s → watches_tracked (rewatched sockfd what s).
Proof.
  intros [H1 H2]. unfold watches_tracked.
  rewrite rewatched_readers, rewatched_writers, rewatched_sockfds.
  change (_curlm (rewatched sockfd what s)) with (_curlm s).
  split.
  - intros fd. specialize (H1 fd).
    destruct (truthy (Z.land what CURL_POLL_IN)),
      (truthy (Z.land what CURL_POLL_OUT)); cbn [orb];
      rewrite ?is_Some_insert_iff, ?is_Some_delete_iff;
      destruct (decide (fd = sockfd)); set_solver.
  - intros Hlive fd. specialize (H2 Hlive fd).
    destruct (truthy (Z.land what CURL_POLL_IN)),
      (truthy (Z.land what CURL_POLL_OUT)); cbn [orb];
      rewrite ?is_Some_insert_iff, ?is_Some_delete_iff;
      destruct (decide (fd = sockfd)); set_solver.
Qed.

Lemma watches_tracked_watched sockfd what s :
  watches_tracked s → watches_tracked (watched sockfd what s).
Proof.
  intros [H1 H2]. unfold watches_tracked.
  rewrite watched_readers, watched_writers, watched_sockfds.
  change (_curlm (watched sockfd what s)) with (_curlm s).
  split.
  - intros fd. specialize (H1 fd).
    destruct (truthy (Z.land what CURL_POLL_IN)),
      (truthy (Z.land what CURL_POLL_OUT)); cbn [orb];
      rewrite ?is_Some_insert_iff;
      destruct (decide (fd = sockfd)); set_solver.
  - intros Hlive fd. specialize (H2 Hlive fd).
    destruct (truthy (Z.land what CURL_POLL_IN)),
      (truthy (Z.land what CURL_POLL_OUT)); cbn [orb];
      rewrite ?is_Some_insert_iff;
      destruct (decide (fd = sockfd)); set_solver.
Qed.

Lemma unwatch_all_Some {V} fds (m : gmap Z V) fd :
  is_Some (unwatch_all fds m !! fd) → is_Some (m !! fd).
Proof.
  revert m. induction fds as [|x fds IH]; intros m H; [done|].
  apply IH in H. by apply is_Some_delete_iff in H as [_ H].
Qed.

Lemma closed_readers s :
  readers (closed s) = unwatch_all (elements (_sockfds s)) (readers s).
Proof. reflexivity. Qed.

Lemma closed_writers s :
  writers (closed s) = unwatch_all (elements (_sockfds s)) (writers s).
Proof. reflexivity. Qed.

Lemma closed_scheduled s :
  scheduled (closed s) = cancel_all (_timers s) (scheduled s).
Proof. reflexivity. Qed.

Lemma watches_tracked_closed s :
  watches_tracked s → watches_tracked (closed s).
Proof.
  intros [H1 _]. split.
  - intros fd. rewrite closed_readers, closed_writers.
    change (_sockfds (closed s)) with (_sockfds s).
    intros [H|H]; apply unwatch_all_Some in H; apply H1; [by left|by right].
  - intros Hlive. by destruct Hlive.
Qed.

Lemma watches_tracked_run_op o s :
  watches_tracked s → watches_tracked (run_op o s).2.
Proof.
  intros H. destruct o.
  - rewrite run_add_handle. revert H.
    apply watches_tracked_same_loop, add_handle_same_loop.
  - revert H. apply watches_tracked_same_loop, sl_remove_handle.
  - revert H. apply watches_tracked_same_loop, sl_set_result.
  - revert H. apply watches_tracked_same_loop, sl_set_exception.
  - destruct (open_or_closed s) as [Ho|Hc].
    + cbn [run_op]. rewrite close_eq by done.
      by apply watches_tracked_closed.
    + cbn [run_op]. rewrite close_closed by done. revert H.
      by apply watches_tracked_same.
  - revert H. apply watches_tracked_same_loop, sl_process_data.
  - cbn [run_op].
    destruct (timer_function_same_watches timeout_ms s) as (E1 & E2 & E3).
    revert H. apply watches_tracked_same; try done.
    apply timer_function_same_registry.
  - cbn [run_op]. destruct (socket_function_cases s sockfd what)
      as [E|[[_ E]|[[_ E]|(_ & _ & E)]]]; rewrite E; cbn [snd].
    + done.
    + by apply watches_tracked_rewatched.
    + done.
    + by apply watches_tracked_watched.
Qed.

Lemma watches_tracked_init curlm : watches_tracked (init curlm).
Proof.
  split.
  - intros fd. cbn [init readers writers].
    rewrite !lookup_empty. intros [[? H]|[? H]]; discriminate H.
  - intros _ fd. cbn [init _sockfds]. set_solver.
Qed.

Lemma watches_tracked_run ops s :
  watches_tracked s → watches_tracked (run ops s).
Proof.
  revert s. induction ops as [|o ops IH]; intros s H; [done|].
  simpl. by apply IH, watches_tracked_run_op.
Qed.

(** X2: in every state the adapter reaches from [__init__], a
    descriptor that has a reader or a writer watch is in [_sockfds];
    until [close], a descriptor of [_sockfds] has a reader or a writer
    watch. *)
Theorem watches_tracked_reachable (ops : list Op) (curlm : Z) :
  watches_tracked (run ops (init curlm)).
Proof. apply watches_tracked_run, watches_tracked_init. Qed.

Lemma cancel_all_not_cancelled ts sch t h :
  cancel_all ts sch !! t = Some h → timer_cancelled h = false →
  (t ∉ ts) ∧ sch !! t = Some h.
Proof.
  revert sch. induction ts as [|x ts IH]; intros sch H Hc.
  - split; [apply not_elem_of_nil|done].
  - apply IH in H as [Hnin H]; [|done].
    destruct (decide (x = t)) as [->|Hne].
    + rewrite list_lookup_alter_eq in H.
      destruct (sch !! t) as [h0|]; [|done].
      simpl in H. injection H as <-. done.
    + rewrite list_lookup_alter_ne in H by done.
      split; [|done]. apply not_elem_of_cons. split; [by intros ->|done].
Qed.

Lemma timers_tracked_cancel_all s :
  timers_tracked s →
  ∀ t h, cancel_all (_timers s) (scheduled s) !! t = Some h →
         timer_cancelled h = true.
Proof.
  intros H t h Ht. destruct (timer_cancelled h) eqn:E; [done|].
  apply cancel_all_not_cancelled in Ht as [Hnin Ht]; [|done].
  destruct Hnin. by eapply H.
Qed.

Lemma timers_tracked_timer_function timeout_ms s :
  timers_tracked s → timers_tracked (timer_function timeout_ms s).2.
Proof.
  intros H. rewrite timer_function_eq. cbn [snd].
  destruct (timeout_ms =? -1)%Z; intros t h; red_state;
    fold (_timers s) (scheduled s); intros Ht Hc.
  - apply (timers_tracked_cancel_all s H) in Ht. congruence.
  - apply lookup_app_Some in Ht as [Ht|[Hge Ht]].
    + apply elem_of_app. left. by eapply H.
    + apply elem_of_app. right.
      apply list_lookup_singleton_Some in Ht as [Hz _].
      assert (t = length (scheduled s)) as -> by lia. constructor.
Qed.

Lemma timers_tracked_closed s : timers_tracked s → timers_tracked (closed s).
Proof.
  intros H t h. rewrite closed_scheduled. intros Ht Hc.
  apply (timers_tracked_cancel_all s H) in Ht. congruence.
Qed.

Lemma timers_tracked_run_op o s :
  timers_tracked s → timers_tracked (run_op o s).2.
Proof.
  intros H. destruct o.
  - rewrite run_add_handle. revert H.
    apply timers_tracked_same_loop, add_handle_same_loop.
  - revert H. apply timers_tracked_same_loop, sl_remove_handle.
  - revert H. apply timers_tracked_same_loop, sl_set_result.
  - revert H. apply timers_tracked_same_loop, sl_set_exception.
  - destruct (open_or_closed s) as [Ho|Hc].
    + cbn [run_op]. rewrite close_eq by done.
      by apply timers_tracked_closed.
    + cbn [run_op]. rewrite close_closed by done. revert H.
      by apply timers_tracked_same.
  - revert H. apply timers_tracked_same_loop, sl_process_data.
  - by apply timers_tracked_timer_function.
  - cbn [run_op]. destruct (socket_function_same_timers sockfd what s) as [E1 E2].
    revert H. by apply timers_tracked_same.
Qed.

Lemma timers_tracked_init curlm : timers_tracked (init curlm).
Proof. intros t h H. by destruct t. Qed.

Lemma timers_tracked_run ops s : timers_tracked s → timers_tracked (run ops s).
Proof.
  revert s. induction ops as [|o ops IH]; intros s H; [done|].
  simpl. by apply IH, timers_tracked_run_op.
Qed.

(** X3: in every state the adapter reaches from [__init__], a timer
    handle that is not cancelled is in [_timers]. *)
Theorem timers_tracked_reachable (ops : list Op) (curlm : Z) :
  timers_tracked (run ops (init curlm)).
Proof. apply timers_tracked_run, timers_tracked_init. Qed.

(** ** close and the cancel-all timer callback, on states the adapter reaches *)

Lemma unwatch_all_tracked {V} (fds : gset Z) (m : gmap Z V) :
  (∀ fd, is_Some (m !! fd) → fd ∈ fds) →
  unwatch_all (elements fds) m = ∅.
Proof.
  intros H. apply map_empty. intros fd.
  destruct (m !! fd) as [v|] eqn:E.
  - apply unwatch_all_elem, elem_of_elements, H. by rewrite E.
  - by apply unwatch_all_None.
Qed.

Lemma closed_nothing_armed s :
  registry_wf s → watches_tracked s → timers_tracked s →
  readers (closed s) = ∅
  ∧ writers (closed s) = ∅
  ∧ (∀ t h, scheduled (closed s) !! t = Some h → timer_cancelled h = true)
  ∧ (∀ curl f, _curl2future (closed s) !! curl = Some f →
       ∃ st, futures (closed s) !! f = Some st ∧ is_terminal st = true).
Proof.
  intros (_ & _ & Hb & _) [Hw _] Ht.
  rewrite closed_readers, closed_writers, closed_scheduled, closed_futures.
  split; [|split; [|split]].
  - apply unwatch_all_tracked. intros fd H. apply Hw. by left.
  - apply unwatch_all_tracked. intros fd H. apply Hw. by right.
  - by apply timers_tracked_cancel_all.
  - intros curl f Hreg. change (_curl2future (closed s)) with (_curl2future s) in Hreg.
    destruct (lookup_lt_is_Some_2 _ _ (Hb _ _ Hreg)) as [st Hst].
    destruct (is_terminal st) eqn:E.
    + exists st. split; [|done]. by apply resolve_all_terminal.
    + destruct st; try done. exists (FINISHED_result PyNone).
      split; [|done]. apply resolve_all_pending; [|done].
      by eapply elem_of_registry_futures.
Qed.

(** X4: the first [close], in any state the adapter reaches from
    [__init__], leaves the loop with no reader and no writer watch, every
    timer handle cancelled, and no future of the registry pending; a
    later [close] raises at its first native call and changes no watch,
    timer, future or registry entry. *)
Theorem close_leaves_nothing_armed (ops : list Op) (curlm : Z) :
  (_curlm (run ops (init curlm)) ≠ None →
   readers (close (run ops (init curlm))).2 = ∅
   ∧ writers (close (run ops (init curlm))).2 = ∅
   ∧ (∀ t h, scheduled (close (run ops (init curlm))).2 !! t = Some h →
        timer_cancelled h = true)
   ∧ (∀ curl f,
        _curl2future (close (run ops (init curlm))).2 !! curl = Some f →
        ∃ st, futures (close (run ops (init curlm))).2 !! f = Some st
              ∧ is_terminal st = true))
  ∧ (_curlm (run ops (init curlm)) = None →
     (close (run ops (init curlm))).1 = Raise (TypeError none_for_pointer)
     ∧ same_loop (run ops (init curlm)) (close (run ops (init curlm))).2
     ∧ same_registry (run ops (init curlm)) (close (run ops (init curlm))).2).
Proof.
  split.
  - intros Ho. rewrite close_eq by done. cbn [snd].
    apply closed_nothing_armed.
    + apply registry_wf_run, registry_wf_init.
    + apply watches_tracked_run, watches_tracked_init.
    + apply timers_tracked_run, timers_tracked_init.
  - intros Hc. rewrite close_closed by done. by repeat split.
Qed.

(** ** The registry of a closed adapter *)

Lemma process_data_closed sockfd ev_bitmask engine s :
  _curlm s = None →
  process_data sockfd ev_bitmask engine s
  = (Ok tt, upd_warnings (λ l, l ++ [closed_warning]) s).
Proof. intros Hc. unfold process_data. unfold_m. by rewrite Hc. Qed.

Lemma closed_settled_same s s' :
  same_registry s s' → closed_settled s → closed_settled s'.
Proof.
  intros (E1 & E2 & E3 & E4) H. unfold closed_settled.
  by rewrite E1, E2, E4.
Qed.

Lemma closed_settled_open s : _curlm s ≠ None → closed_settled s.
Proof. by intros Ho Hc. Qed.

Lemma closed_settled_resolved curl st s :
  _curlm s ≠ None → closed_settled (resolved curl st s).
Proof.
  intros Ho. apply closed_settled_open. by rewrite resolved_curlm.
Qed.

Lemma closed_settled_closed s : registry_wf s → closed_settled (closed s).
Proof.
  intros (_ & _ & Hb & _) _ curl f Hreg.
  change (_curl2future (closed s)) with (_curl2future s) in Hreg.
  rewrite closed_futures.
  destruct (lookup_lt_is_Some_2 _ _ (Hb _ _ Hreg)) as [st Hst].
  destruct (is_terminal st) eqn:E.
  - exists st. split; [|done]. by apply resolve_all_terminal.
  - destruct st; try done. exists (FINISHED_result PyNone).
    split; [|done]. apply resolve_all_pending; [|done].
    by eapply elem_of_registry_futures.
Qed.

Lemma closed_settled_run_op o s :
  registry_wf s → closed_settled s → closed_settled (run_op o s).2.
Proof.
  intros Hwf H. destruct (open_or_closed s) as [Ho|Hc].
  - destruct o; [rewrite run_add_handle|cbn [run_op]..].
    + apply closed_settled_open.
      destruct (add_handle_same_loop curl s) as [E _]. by rewrite E.
    + rewrite remove_handle_eq by done. by apply closed_settled_resolved.
    + rewrite set_result_eq by done. by apply closed_settled_resolved.
    + rewrite set_exception_eq by done. by apply closed_settled_resolved.
    + rewrite close_eq by done. by apply closed_settled_closed.
    + apply closed_settled_open.
      destruct (sl_process_data sockfd ev_bitmask engine s) as [E _].
      by rewrite E.
    + revert H. apply closed_settled_same, timer_function_same_registry.
    + revert H. apply closed_settled_same, socket_function_same_registry.
  - revert H. apply closed_settled_same.
    destruct o; [rewrite run_add_handle|cbn [run_op]..].
    + rewrite add_handle_closed by done. by repeat split.
    + rewrite remove_handle_closed by done. by repeat split.
    + rewrite set_result_closed by done. by repeat split.
    + rewrite set_exception_closed by done. by repeat split.
    + rewrite close_closed by done. by repeat split.
    + rewrite process_data_closed by done. by repeat split.
    + apply timer_function_same_registry.
    + apply socket_function_same_registry.
Qed.

Lemma closed_settled_run ops s :
  registry_wf s → closed_settled s → closed_settled (run ops s).
Proof.
  revert s. induction ops as [|o ops IH]; intros s Hwf H; [done|].
  cbn [run]. apply IH; [by apply registry_wf_run_op|].
  by apply closed_settled_run_op.
Qed.

Lemma closed_settled_pending ops curlm curl f :
  _curl2future (run ops (init curlm)) !! curl = Some f →
  futures (run ops (init curlm)) !! f = Some PENDING →
  _curlm (run ops (init curlm)) ≠ None.
Proof.
  intros Hreg Hp Hc.
  assert (Hinit : closed_settled (init curlm)) by (intros E; discriminate E).
  destruct (closed_settled_run ops (init curlm) (registry_wf_init curlm)
              Hinit Hc curl f Hreg) as (st & Hst & Ht).
  rewrite Hp in Hst. injection Hst as <-. discriminate Ht.
Qed.

(** X17: in every state the adapter reaches from [__init__], a transfer
    of the registry whose future is pending is on an adapter that has
    not been closed: [close] leaves no future of the registry pending,
    and on a closed adapter [add_handle] raises before it registers
    anything. *)
Theorem pending_registered_open (ops : list Op) (curlm : Z) (curl : Curl)
    (f : nat) :
  _curl2future (run ops (init curlm)) !! curl = Some f →
  futures (run ops (init curlm)) !! f = Some PENDING →
  _curlm (run ops (init curlm)) ≠ None.
Proof. apply closed_settled_pending. Qed.

(** X5: [timer_function] with [timeout_ms = -1], in any state the
    adapter reaches from [__init__], leaves every timer handle
    cancelled, not only those still in [_timers]. *)
Theorem timer_function_cancel_leaves_none (ops : list Op) (curlm : Z) :
  ∀ t h,
    scheduled (timer_function (-1) (run ops (init curlm))).2 !! t = Some h →
    timer_cancelled h = true.
Proof.
  rewrite timer_function_cancel_eq. cbn [snd].
  apply (timers_tracked_cancel_all (run ops (init curlm))).
  apply timers_tracked_run, timers_tracked_init.
Qed.

(** ** Scheduling timers *)

Lemma run_app ops1 ops2 s : run (ops1 ++ ops2) s = run ops2 (run ops1 s).
Proof.
  revert s. induction ops1 as [|o ops1 IH]; intros s; [done|]. apply IH.
Qed.

(** X6: [timer_function] does not deduplicate: a series of calls with
    timeouts other than -1 appends one new handle per call, not
    cancelled, for [process_data(CURL_SOCKET_TIMEOUT, CURL_POLL_NONE)],
    and adds each to [_timers]; the handles there were are untouched,
    and so are the registry, the futures and the watches. *)
Theorem timer_function_schedules_each (timeouts : list Z) (s : State) :
  Forall (λ ms, ms ≠ (-1)%Z) timeouts →
  scheduled (run (TimerFunction <$> timeouts) s)
  = scheduled s ++ (timeout_timer <$> timeouts)
  ∧ _timers (run (TimerFunction <$> timeouts) s)
    = _timers s ++ seq (length (scheduled s)) (length timeouts)
  ∧ same_registry s (run (TimerFunction <$> timeouts) s)
  ∧ _sockfds (run (TimerFunction <$> timeouts) s) = _sockfds s
  ∧ readers (run (TimerFunction <$> timeouts) s) = readers s
  ∧ writers (run (TimerFunction <$> timeouts) s) = writers s.
Proof.
  revert s. induction timeouts as [|ms l IH]; intros s Hall.
  - simpl. rewrite !app_nil_r. by repeat split.
  - apply Forall_cons in Hall as [Hms Hall].
    cbn [fmap list_fmap run run_op].
    rewrite timer_function_schedule_eq by done. cbn [snd].
    destruct (IH (upd_timers (λ l0, l0 ++ [length (scheduled s)])
                    (upd_scheduled (λ l0, l0 ++ [timeout_timer ms]) s)) Hall)
      as (E1 & E2 & E3 & E4 & E5 & E6).
    rewrite E1, E2, E4, E5, E6. red_state.
    fold (scheduled s) (_timers s) (_sockfds s) (readers s) (writers s).
    rewrite length_app, <- !app_assoc. simpl.
    rewrite Nat.add_1_r.
    split; [done|]. split; [done|].
    split; [|by repeat split].
    eapply same_registry_trans; [|exact E3]. by repeat split.
Qed.

(** ** The socket callback without the remove bit *)

Lemma land_none what bit :
  Z.land what 7 = 0%Z → Z.land 7 bit = bit → Z.land what bit = 0%Z.
Proof. intros H <-. by rewrite Z.land_assoc, H. Qed.

(** X7: a socket callback whose mask has none of the read, write and
    remove bits ([CURL_POLL_NONE] or bits outside them) returns and
    changes nothing, whether the descriptor is watched or not. *)
Theorem socket_function_no_interest (s : State) (sockfd what : Z) :
  Z.land what 7 = 0%Z →
  socket_function sockfd what s = (Ok tt, s).
Proof.
  intros H. apply socket_function_no_bits; unfold truthy;
    by rewrite (land_none what _ H).
Qed.

(** X8: after a socket callback whose mask has a read or write bit and
    no remove bit, on a state whose watches are tracked, the descriptor
    is in [_sockfds] and its watches are exactly those the mask asks
    for, whatever they were before: a reader calling
    [process_data(sockfd, CURL_CSELECT_IN)] if and only if the read bit
    is set, a writer calling [process_data(sockfd, CURL_CSELECT_OUT)] if
    and only if the write bit is set.  No other descriptor, timer,
    future or registry entry changes. *)
Theorem socket_function_sets_interest (s : State) (sockfd what : Z) :
  watches_tracked s →
  truthy (Z.land what CURL_POLL_IN) || truthy (Z.land what CURL_POLL_OUT)
  = true →
  Z.land what CURL_POLL_REMOVE = 0%Z →
  ∃ s',
    socket_function sockfd what s = (Ok tt, s')
    ∧ sockfd ∈ _sockfds s'
    ∧ readers s' !! sockfd
      = (if truthy (Z.land what CURL_POLL_IN)
         then Some (sockfd, CURL_CSELECT_IN) else None)
    ∧ writers s' !! sockfd
      = (if truthy (Z.land what CURL_POLL_OUT)
         then Some (sockfd, CURL_CSELECT_OUT) else None)
    ∧ (∀ fd, fd ≠ sockfd →
         readers s' !! fd = readers s !! fd
         ∧ writers s' !! fd = writers s !! fd
         ∧ (fd ∈ _sockfds s' ↔ fd ∈ _sockfds s))
    ∧ same_registry s s'
    ∧ _timers s' = _timers s
    ∧ scheduled s' = scheduled s.
Proof.
  intros [Hw _] Hany Hrm.
  destruct (decide (sockfd ∈ _sockfds s)) as [Hin|Hnin].
  - exists (rewatched sockfd what s).
    split; [apply socket_function_tracked; [done|by rewrite Hany]|].
    rewrite rewatched_readers, rewatched_writers, rewatched_sockfds, Hany.
    split; [set_solver|]. split; [|split; [|split]].
    + destruct (truthy (Z.land what CURL_POLL_IN));
        [apply lookup_insert_eq|apply lookup_delete_eq].
    + destruct (truthy (Z.land what CURL_POLL_OUT));
        [apply lookup_insert_eq|apply lookup_delete_eq].
    + intros fd Hne. split; [|split].
      * destruct (truthy (Z.land what CURL_POLL_IN));
          [by rewrite lookup_insert_ne|by rewrite lookup_delete_ne].
      * destruct (truthy (Z.land what CURL_POLL_OUT));
          [by rewrite lookup_insert_ne|by rewrite lookup_delete_ne].
      * set_solver.
    + by repeat split.
  - assert (Hr : readers s !! sockfd = None).
    { destruct (readers s !! sockfd) eqn:E; [|done].
      destruct Hnin. apply Hw. left. by rewrite E. }
    assert (Hwr : writers s !! sockfd = None).
    { destruct (writers s !! sockfd) eqn:E; [|done].
      destruct Hnin. apply Hw. right. by rewrite E. }
    exists (watched sockfd what s).
    split; [apply socket_function_untracked_watch; [done|]|].
    { unfold truthy. by rewrite Hrm. }
    rewrite watched_readers, watched_writers, watched_sockfds, Hany.
    split; [set_solver|]. split; [|split; [|split]].
    + destruct (truthy (Z.land what CURL_POLL_IN));
        [apply lookup_insert_eq|done].
    + destruct (truthy (Z.land what CURL_POLL_OUT));
        [apply lookup_insert_eq|done].
    + intros fd Hne. split; [|split].
      * destruct (truthy (Z.land what CURL_POLL_IN));
          [by rewrite lookup_insert_ne|done].
      * destruct (truthy (Z.land what CURL_POLL_OUT));
          [by rewrite lookup_insert_ne|done].
      * set_solver.
    + by repeat split.
Qed.

(** ** Resolving one transfer *)

Lemma resolved_lib_calls curl st s :
  lib_calls (resolved curl st s)
  = lib_calls s ++ [curl_multi_remove_handle (_curlm s) (_curl curl)].
Proof.
  unfold resolved. destruct (_curl2future s !! curl) as [f|]; [|done].
  by destruct (futures s !! f) as [[]|].
Qed.

Lemma add_handle_futures curl s :
  _curlm s ≠ None →
  futures (add_handle curl s).2 = futures s ++ [PENDING].
Proof. intros Ho. by rewrite add_handle_eq. Qed.

Lemma add_handle_curl2future curl s :
  _curlm s ≠ None →
  _curl2future (add_handle curl s).2
  = <[curl := length (futures s)]> (_curl2future s).
Proof. intros Ho. by rewrite add_handle_eq. Qed.

Lemma add_handle_curl2curl curl s :
  _curlm s ≠ None →
  _curl2curl (add_handle curl s).2 = <[_curl curl := curl]> (_curl2curl s).
Proof. intros Ho. by rewrite add_handle_eq. Qed.

Lemma add_handle_lib_calls curl s :
  _curlm s ≠ None →
  lib_calls (add_handle curl s).2
  = (lib_calls s ++ [curl_ensure_cacert curl])
      ++ [curl_multi_add_handle (_curlm s) (_curl curl)].
Proof. intros Ho. by rewrite add_handle_eq. Qed.

Lemma add_handle_curlm curl s : _curlm (add_handle curl s).2 = _curlm s.
Proof. apply add_handle_same_loop. Qed.

Lemma add_handle_returns curl s :
  _curlm s ≠ None →
  add_handle curl s = (Ok (length (futures s)), (add_handle curl s).2).
Proof. intros Ho. by rewrite add_handle_eq. Qed.


(** X10: on an adapter that has not been closed, [add_handle] of a
    transfer that is in neither registry map,
    followed by [remove_handle] of it: both return, the future
    [add_handle] returned is new and ends cancelled, the two registry
    maps are back to what they were, and no earlier future changed. *)
Theorem add_then_remove_handle (s : State) (curl : Curl) :
  _curlm s ≠ None →
  _curl2future s !! curl = None →
  _curl2curl s !! _curl curl = None →
  ∃ s1 s2,
    add_handle curl s = (Ok (length (futures s)), s1)
    ∧ remove_handle curl s1 = (Ok tt, s2)
    ∧ futures s2 = futures s ++ [CANCELLED]
    ∧ _curl2future s2 = _curl2future s
    ∧ _curl2curl s2 = _curl2curl s
    ∧ lib_calls s2
      = lib_calls s
        ++ [curl_ensure_cacert curl;
            curl_multi_add_handle (_curlm s) (_curl curl);
            curl_multi_remove_handle (_curlm s) (_curl curl)].
Proof.
  intros Ho H1 H2.
  exists (add_handle curl s).2, (resolved curl CANCELLED (add_handle curl s).2).
  split; [by apply add_handle_returns|].
  split; [apply remove_handle_eq; by rewrite add_handle_curlm|].
  rewrite resolved_futures, resolved_curl2future, resolved_curl2curl,
    resolved_lib_calls.
  rewrite add_handle_futures, add_handle_curl2future, add_handle_curl2curl,
    add_handle_lib_calls, add_handle_curlm by done.
  rewrite lookup_insert_eq, lookup_app_r, Nat.sub_diag by lia.
  cbn [lookup list_lookup].
  split; [|split; [by apply delete_insert_id|split;
                   [by apply delete_insert_id|]]].
  - rewrite insert_app_r_alt, Nat.sub_diag by lia. done.
  - by rewrite <- !app_assoc.
Qed.

(** ** The drive loop on a whole queue *)

(** X11: [process_data] itself never adds, removes or cancels a watch
    or a timer and never touches the multi handle, whatever the engine
    answers and whether it returns or raises. *)
Theorem process_data_keeps_loop (s : State) (sockfd ev_bitmask : Z)
    (engine : EngineReply) :
  same_loop s (process_data sockfd ev_bitmask engine s).2.
Proof. apply sl_process_data. Qed.

Lemma process_msg_other curl_msg s :
  msg curl_msg ≠ CURLMSG_DONE →
  process_msg curl_msg s
  = (Ok tt, upd_stdout (λ l, l ++ ["NOT DONE"]) s).
Proof.
  intros Hm. unfold process_msg.
  by rewrite (proj2 (Z.eqb_neq _ _) Hm).
Qed.

Lemma done_handles_cons_done m queue :
  msg m = CURLMSG_DONE →
  done_handles (m :: queue) = easy_handle m :: done_handles queue.
Proof. intros H. unfold done_handles. by rewrite filter_cons_True. Qed.

Lemma done_handles_cons_other m queue :
  msg m ≠ CURLMSG_DONE → done_handles (m :: queue) = done_handles queue.
Proof. intros H. unfold done_handles. by rewrite filter_cons_False. Qed.

Lemma elem_of_done_handles m queue :
  m ∈ queue → msg m = CURLMSG_DONE → easy_handle m ∈ done_handles queue.
Proof.
  intros Hin Hm. unfold done_handles.
  apply list_elem_of_fmap. exists m. split; [done|].
  by apply list_elem_of_filter.
Qed.

Lemma outcome_terminal curl retcode : is_terminal (outcome curl retcode) = true.
Proof. unfold outcome. by destruct (retcode =? 0)%Z. Qed.

Lemma process_data_live sockfd ev_bitmask engine s :
  truthy_ptr (_curlm s) = true →
  process_data sockfd ev_bitmask engine s
  = info_read_loop (msg_queue engine)
      (upd_lib_calls
         (λ l, l ++ [curl_multi_socket_action (_curlm s) sockfd ev_bitmask])
         s).
Proof.
  intros H. unfold process_data, socket_action. unfold_m. cbv beta iota.
  rewrite H. cbn [negb]. by rewrite lib_open by by apply truthy_ptr_live.
Qed.

Lemma info_read_loop_cons m queue s :
  _curlm s ≠ None →
  info_read_loop (m :: queue) s
  = match process_msg m
            (upd_lib_calls (λ l, l ++ [curl_multi_info_read (_curlm s)]) s)
    with
    | (Ok _, s1) => info_read_loop queue s1
    | (Raise e, s1) => (Raise e, s1)
    end.
Proof.
  intros Ho. cbn [info_read_loop]. unfold mbind, M_bind.
  by rewrite lib_open.
Qed.

Lemma info_read_loop_drains queue :
  ∀ s,
    registry_wf s →
    _curlm s ≠ None →
    NoDup (done_handles queue) →
    (∀ h, h ∈ done_handles queue → is_Some (_curl2curl s !! h)) →
    ∃ s',
      info_read_loop queue s = (Ok tt, s')
      ∧ registry_wf s'
      ∧ _curlm s' = _curlm s
      ∧ (∀ m curl, m ∈ queue → msg m = CURLMSG_DONE →
           _curl2curl s !! easy_handle m = Some curl →
           ∃ f, _curl2future s !! curl = Some f
                ∧ futures s' !! f = Some (outcome curl (data_result m))
                ∧ _curl2future s' !! curl = None)
      ∧ (∀ curl f, _curl2future s !! curl = Some f →
           _curl curl ∉ done_handles queue →
           _curl2future s' !! curl = Some f)
      ∧ (∀ curl, _curl2future s !! curl = None →
           _curl2future s' !! curl = None)
      ∧ (∀ h, _curl2curl s !! h = None ∨ h ∈ done_handles queue →
           _curl2curl s' !! h = None).
Proof.
  induction queue as [|m queue IH]; intros s Hwf Hlive Hnd Hreg.
  - exists (upd_lib_calls (λ l, l ++ [curl_multi_info_read (_curlm s)]) s).
    split; [by apply lib_open|].
    split; [revert Hwf; apply registry_wf_same; by repeat split|].
    split; [done|]. split; [|split; [|split]].
    + intros m curl Hin. by apply elem_of_nil in Hin.
    + by intros curl f H _.
    + by intros curl H.
    + intros h [H|H]; [done|]. by apply elem_of_nil in H.
  - rewrite info_read_loop_cons by done.
    set (s0 := upd_lib_calls (λ l, l ++ [curl_multi_info_read (_curlm s)]) s).
    assert (Hwf0 : registry_wf s0).
    { revert Hwf. apply registry_wf_same. by repeat split. }
    destruct (decide (msg m = CURLMSG_DONE)) as [Hm|Hm].
    + rewrite done_handles_cons_done in Hnd, Hreg by done.
      apply NoDup_cons in Hnd as [Hfresh Hnd].
      destruct (Hreg (easy_handle m)) as [curl Hcurl]; [by left|].
      rewrite (process_msg_done m curl s0) by done.
      fold (outcome curl (data_result m)).
      set (s1 := resolved curl (outcome curl (data_result m)) s0).
      destruct Hwf as (Hc & Hi & Hb & Hp).
      destruct (Hc _ _ Hcurl) as [Hh [f Hf]].
      assert (E2f : _curl2future s1 = delete curl (_curl2future s))
        by exact (resolved_curl2future _ _ s0).
      assert (E2c : _curl2curl s1 = delete (easy_handle m) (_curl2curl s)).
      { rewrite <- Hh. exact (resolved_curl2curl _ _ s0). }
      assert (Em : _curlm s1 = _curlm s) by exact (resolved_curlm _ _ s0).
      destruct (IH s1) as (s' & Erun & Hwf' & Em' & P1 & P2 & P3 & P4).
      { by apply registry_wf_resolved. }
      { by rewrite Em. }
      { done. }
      { intros h Hin. rewrite E2c, lookup_delete_ne.
        - apply Hreg. by right.
        - by intros <-. }
      exists s'. split; [exact Erun|]. split; [exact Hwf'|].
      split; [by rewrite Em'|]. split; [|split; [|split]].
      * intros m' curl' Hin' Hm' Hcurl'.
        destruct (decide (easy_handle m' = easy_handle m)) as [Eh|Hne].
        -- rewrite Eh, Hcurl in Hcurl'. injection Hcurl' as <-.
           apply elem_of_cons in Hin' as [->|Hin'].
           ++ exists f. split; [done|]. split.
              ** pose proof (kt_info_read_loop queue s1) as Hkt.
                 rewrite Erun in Hkt. apply Hkt; [|apply outcome_terminal].
                 apply (resolved_pending curl f _ s0);
                   [exact Hf|exact (Hp Hlive curl f Hf)].
              ** apply P3. rewrite E2f. apply lookup_delete_eq.
           ++ destruct Hfresh. rewrite <- Eh.
              by apply elem_of_done_handles.
        -- apply elem_of_cons in Hin' as [->|Hin']; [done|].
           destruct (P1 m' curl' Hin' Hm') as (f' & Hf' & Hout & Hgone).
           { by rewrite E2c, lookup_delete_ne. }
           exists f'. split; [|done].
           rewrite E2f in Hf'. by apply lookup_delete_Some in Hf' as [_ ?].
      * intros curl' f' Hf' Hnin.
        rewrite done_handles_cons_done in Hnin by done.
        apply not_elem_of_cons in Hnin as [Hne Hnin].
        apply P2; [|done]. rewrite E2f, lookup_delete_ne; [done|].
        intros <-. by rewrite Hh in Hne.
      * intros curl' Hnone. apply P3. rewrite E2f.
        apply lookup_delete_None. by right.
      * intros h Hh'. rewrite done_handles_cons_done in Hh' by done.
        apply P4. destruct (decide (h = easy_handle m)) as [->|Hne].
        -- left. rewrite E2c. apply lookup_delete_eq.
        -- destruct Hh' as [Hnone|Hin].
           ++ left. by rewrite E2c, lookup_delete_ne.
           ++ right. by apply elem_of_cons in Hin as [->|Hin].
    + rewrite done_handles_cons_other in Hnd, Hreg by done.
      rewrite process_msg_other by done.
      set (s1 := upd_stdout (λ l, l ++ ["NOT DONE"]) s0).
      destruct (IH s1) as (s' & Erun & Hwf' & Em' & P1 & P2 & P3 & P4);
        [exact Hwf0|exact Hlive|exact Hnd|exact Hreg|].
      exists s'. split; [exact Erun|]. split; [exact Hwf'|].
      split; [exact Em'|]. split; [|split; [|split]].
      * intros m' curl' Hin' Hm' Hcurl'.
        apply elem_of_cons in Hin' as [->|Hin']; [done|].
        by apply P1.
      * intros curl' f' Hf' Hnin.
        rewrite done_handles_cons_other in Hnin by done. by apply P2.
      * exact P3.
      * intros h Hh'. rewrite done_handles_cons_other in Hh' by done.
        by apply P4.
Qed.

(** X12: on an open adapter whose registry is as the adapter keeps it,
    when the transfer-done messages of the queue name different native
    handles, all of them in the registry, [process_data] returns after
    the whole queue: every such transfer's future is finished with
    [None] when its status code is 0 and with
    [curl._get_error(retcode, "perform")] otherwise, and the transfer has
    left both registry maps; a transfer without a message stays in the
    registry, pending; messages of another kind change none of this. *)
Theorem process_data_drains (s : State) (sockfd ev_bitmask n : Z)
    (queue : list CURLMsg) :
  registry_wf s →
  truthy_ptr (_curlm s) = true →
  NoDup (done_handles queue) →
  (∀ h, h ∈ done_handles queue → is_Some (_curl2curl s !! h)) →
  ∃ s',
    process_data sockfd ev_bitmask
      {| running_handle := n; msg_queue := queue |} s = (Ok tt, s')
    ∧ (∀ m curl, m ∈ queue → msg m = CURLMSG_DONE →
         _curl2curl s !! easy_handle m = Some curl →
         ∃ f, _curl2future s !! curl = Some f
              ∧ futures s' !! f = Some (outcome curl (data_result m))
              ∧ _curl2future s' !! curl = None
              ∧ _curl2curl s' !! easy_handle m = None)
    ∧ (∀ curl f, _curl2future s !! curl = Some f →
         _curl curl ∉ done_handles queue →
         _curl2future s' !! curl = Some f
         ∧ futures s' !! f = Some PENDING).
Proof.
  intros Hwf Hlive Hnd Hreg.
  rewrite process_data_live by done. cbn [msg_queue].
  set (s0 := upd_lib_calls _ s).
  destruct (info_read_loop_drains queue s0)
    as (s' & Erun & Hwf' & Em' & P1 & P2 & P3 & P4);
    [exact Hwf|by apply truthy_ptr_live|exact Hnd|exact Hreg|].
  exists s'. split; [exact Erun|]. split.
  - intros m curl Hin Hm Hcurl.
    destruct (P1 m curl Hin Hm Hcurl) as (f & Hf & Hout & Hgone).
    exists f. split; [done|]. split; [done|]. split; [done|].
    apply P4. right. by apply elem_of_done_handles.
  - intros curl f Hf Hnin. split; [by apply P2|].
    destruct Hwf' as (_ & _ & _ & Hp'). eapply Hp'.
    + rewrite Em'. by apply truthy_ptr_live.
    + by apply P2.
Qed.

(** ** The selector registry *)

(** X13: [_get_selector] gives the same object when asked again for the
    same loop, and the second call changes nothing: no second selector
    thread, no second warning, on any platform and for any loop. *)
Theorem get_selector_again (sys_platform : string) (loop : nat) (i : Interp) :
  _get_selector sys_platform loop (_get_selector sys_platform loop i).2
  = _get_selector sys_platform loop i.
Proof.
  unfold _get_selector. destruct (String.eqb sys_platform "win32"); [|done].
  unfold _get_selector_windows.
  destruct (_selectors i !! loop) as [sel|] eqn:E.
  - cbn [snd]. by rewrite E.
  - destruct (isinstance_proactor i loop) eqn:Ep; cbn [negb snd].
    + cbn [_selectors]. by rewrite lookup_insert_eq.
    + by rewrite E, Ep.
Qed.

(** X14: for a proactor loop that has no selector thread yet,
    [_get_selector_windows] makes one, warns once, registers it and
    replaces the loop's [close]; closing the loop afterwards closes the
    selector thread and the loop, puts the original [close] back and
    leaves [_selectors] as it was before; asking again then makes
    another selector thread. *)
Theorem get_selector_then_close (loop : nat) (lo : LoopObject) (i : Interp) :
  loops i !! loop = Some lo →
  is_proactor lo = true →
  close_patch lo = None →
  _selectors i !! loop = None →
  (_get_selector_windows loop i).1 = SelectorLoop (length (selector_threads i))
  ∧ runtime_warnings (_get_selector_windows loop i).2
    = runtime_warnings i ++ [PROACTOR_WARNING]
  ∧ _selectors (_get_selector_windows loop i).2 !! loop
    = Some (length (selector_threads i))
  ∧ close_patch <$> loops (_get_selector_windows loop i).2 !! loop
    = Some (Some (length (selector_threads i)))
  ∧ _selectors (loop_close loop (_get_selector_windows loop i).2)
    = _selectors i
  ∧ loops (loop_close loop (_get_selector_windows loop i).2) !! loop
    = Some (original_close lo)
  ∧ selector_threads (loop_close loop (_get_selector_windows loop i).2)
      !! length (selector_threads i)
    = Some {| real_loop := loop; selector_closed := true |}
  ∧ (_get_selector_windows loop
       (loop_close loop (_get_selector_windows loop i).2)).1
    = SelectorLoop (S (length (selector_threads i))).
Proof.
  intros Hlo Hp Hc Hs.
  assert (E : _get_selector_windows loop i
    = (SelectorLoop (length (selector_threads i)),
       {| _selectors := <[loop := length (selector_threads i)]> (_selectors i);
          loops :=
            alter (λ lo, {| is_proactor := is_proactor lo;
                            close_patch := Some (length (selector_threads i));
                            loop_closed := loop_closed lo |})
                  loop (loops i);
          selector_threads :=
            selector_threads i
              ++ [{| real_loop := loop; selector_closed := false |}];
          runtime_warnings := runtime_warnings i ++ [PROACTOR_WARNING] |})).
  { unfold _get_selector_windows, isinstance_proactor.
    by rewrite Hs, Hlo, Hp. }
  rewrite E. cbn [fst snd runtime_warnings].
  split; [done|]. split; [done|].
  split; [cbn [_selectors]; apply lookup_insert_eq|].
  split; [cbn [loops]; by rewrite lookup_alter_eq, Hlo|].
  unfold loop_close. cbn [loops _selectors selector_threads].
  rewrite lookup_alter_eq, Hlo.
  cbn [fmap option_fmap option_map close_patch is_proactor loop_closed
       _selectors loops selector_threads].
  split; [by apply delete_insert_id|].
  split.
  { rewrite lookup_insert_eq. destruct lo as [p c cl]. simpl in *.
    by subst. }
  split.
  { rewrite list_lookup_alter_eq, lookup_app_r, Nat.sub_diag by lia. done. }
  unfold _get_selector_windows, isinstance_proactor.
  cbn [_selectors loops selector_threads].
  rewrite lookup_delete_eq, lookup_insert_eq.
  cbn [is_proactor original_close]. rewrite Hp. cbn [negb fst].
  by rewrite length_alter, length_app, Nat.add_1_r.
Qed.

(** ** Watching a descriptor and dropping it again *)

Lemma rewatched_remove_watched sockfd what s :
  sockfd ∉ _sockfds s →
  readers s !! sockfd = None →
  writers s !! sockfd = None →
  rewatched sockfd CURL_POLL_REMOVE (watched sockfd what s) = s.
Proof.
  intros Hnin Hr Hw.
  destruct s as [m c2f c2c fds ts ck rd wr sch futs calls ws out].
  simpl in Hnin, Hr, Hw.
  unfold rewatched, watched.
  change (truthy (Z.land CURL_POLL_REMOVE CURL_POLL_IN)) with false.
  change (truthy (Z.land CURL_POLL_REMOVE CURL_POLL_OUT)) with false.
  red_state. f_equal.
  - destruct (truthy (Z.land what CURL_POLL_IN)),
      (truthy (Z.land what CURL_POLL_OUT)); set_solver.
  - destruct (truthy (Z.land what CURL_POLL_IN));
      [by apply delete_insert_id|by apply delete_id].
  - destruct (truthy (Z.land what CURL_POLL_OUT));
      [by apply delete_insert_id|by apply delete_id].
Qed.

(** X16: on a state whose watches are tracked, a socket callback that
    asks for read or write interest (no remove bit) in a descriptor that
    is not in [_sockfds], followed by the callback with
    [CURL_POLL_REMOVE] for it, both return and leave the whole state as
    it was before the first. *)
Theorem socket_function_watch_then_remove (s : State) (sockfd what : Z) :
  watches_tracked s →
  sockfd ∉ _sockfds s →
  truthy (Z.land what CURL_POLL_IN) || truthy (Z.land what CURL_POLL_OUT)
  = true →
  Z.land what CURL_POLL_REMOVE = 0%Z →
  ∃ s1,
    socket_function sockfd what s = (Ok tt, s1)
    ∧ sockfd ∈ _sockfds s1
    ∧ socket_function sockfd CURL_POLL_REMOVE s1 = (Ok tt, s).
Proof.
  intros [Hw _] Hnin Hany Hrm.
  assert (Hr : readers s !! sockfd = None).
  { destruct (readers s !! sockfd) eqn:E; [|done].
    destruct Hnin. apply Hw. left. by rewrite E. }
  assert (Hwr : writers s !! sockfd = None).
  { destruct (writers s !! sockfd) eqn:E; [|done].
    destruct Hnin. apply Hw. right. by rewrite E. }
  assert (Hin : sockfd ∈ _sockfds (watched sockfd what s)).
  { rewrite watched_sockfds, Hany. set_solver. }
  exists (watched sockfd what s).
  split; [apply socket_function_untracked_watch; [done|]|].
  { unfold truthy. by rewrite Hrm. }
  split; [exact Hin|].
  rewrite socket_function_tracked; [|exact Hin|reflexivity].
  by rewrite rewatched_remove_watched.
Qed.

(** ** add_handle on a closed adapter *)

Lemma process_data_steps_closed calls s :
  _curlm s = None →
  _curlm (run (process_data_steps calls) s) = None
  ∧ futures (run (process_data_steps calls) s) = futures s
  ∧ _curl2future (run (process_data_steps calls) s) = _curl2future s
  ∧ _curl2curl (run (process_data_steps calls) s) = _curl2curl s
  ∧ lib_calls (run (process_data_steps calls) s) = lib_calls s.
Proof.
  revert s. induction calls as [|c calls IH]; intros s Hc; [done|].
  cbn [process_data_steps fmap list_fmap run run_op].
  assert (E : process_data c.1.1 c.1.2 c.2 s
              = (Ok tt, upd_warnings (λ l, l ++ [closed_warning]) s)).
  { unfold process_data. unfold_m. by rewrite Hc. }
  rewrite E. cbn [snd].
  destruct (IH (upd_warnings (λ l, l ++ [closed_warning]) s) Hc)
    as (E1 & E2 & E3 & E4 & E5).
  unfold process_data_steps in *. by rewrite E1, E2, E3, E4, E5.
Qed.

(** X15: [add_handle] on a closed adapter raises at its native call,
    after [_ensure_cacert] and before a future is made: no future is
    created and the transfer is not registered.  No later call of
    [process_data], whatever the engine answers, changes a future or
    the registry or makes a native call. *)
Theorem add_handle_after_close_raises (s : State) (curl : Curl)
    (calls : list (Z * Z * EngineReply)) :
  _curlm s = None →
  (add_handle curl s).1 = Raise (TypeError none_for_pointer)
  ∧ lib_calls (add_handle curl s).2 = lib_calls s ++ [curl_ensure_cacert curl]
  ∧ futures (run (process_data_steps calls) (add_handle curl s).2) = futures s
  ∧ _curl2future (run (process_data_steps calls) (add_handle curl s).2)
    = _curl2future s
  ∧ _curl2curl (run (process_data_steps calls) (add_handle curl s).2)
    = _curl2curl s
  ∧ lib_calls (run (process_data_steps calls) (add_handle curl s).2)
    = lib_calls (add_handle curl s).2.
Proof.
  intros Hc.
  destruct (process_data_steps_closed calls (add_handle curl s).2)
    as (_ & E2 & E3 & E4 & E5); [by rewrite add_handle_curlm|].
  rewrite E2, E3, E4, E5, add_handle_closed by done.
  by repeat split.
Qed.

(** ** Concrete runs of the further properties *)

Lemma close_leaves_nothing_armed_witness :
  readers (close busy).2 = ∅
  ∧ ∃ h, scheduled (close busy).2 !! 0 = Some h ∧ timer_cancelled h = true.
Proof.
  destruct (close_leaves_nothing_armed
              [TimerFunction 500; SocketFunction 7 CURL_POLL_IN;
               AddHandle curl_A; AddHandle curl_B] 1)
    as [Hopen _].
  destruct Hopen as (Hr & _ & Ht & _); [by vm_compute|].
  split; [exact Hr|].
  exists (cancel_handle (timeout_timer 500)).
  split; [by vm_compute|]. apply (Ht 0). by vm_compute.
Defined.

Lemma pending_registered_open_witness : _curlm two_transfers ≠ None.
Proof.
  apply (pending_registered_open [AddHandle curl_A; AddHandle curl_B] 1
           curl_B 1); by vm_compute.
Defined.

Lemma timer_function_cancel_leaves_none_witness :
  timer_cancelled (cancel_handle (timeout_timer 500)) = true.
Proof.
  apply (timer_function_cancel_leaves_none
           [TimerFunction 500; TimerFunction (-1); TimerFunction 500] 1 0).
  by vm_compute.
Defined.

Lemma timer_function_schedules_each_witness :
  scheduled (run (TimerFunction <$> [500; 500; 0]%Z) watching)
  = [timeout_timer 500; timeout_timer 500; timeout_timer 0]
  ∧ _timers (run (TimerFunction <$> [500; 500; 0]%Z) watching) = [0; 1; 2].
Proof.
  destruct (timer_function_schedules_each [500; 500; 0]%Z watching)
    as (E1 & E2 & _).
  - repeat constructor; discriminate.
  - split; [exact E1|exact E2].
Defined.

Lemma socket_function_no_interest_witness :
  socket_function 7 CURL_POLL_NONE watching = (Ok tt, watching).
Proof. apply socket_function_no_interest. reflexivity. Defined.

Lemma socket_function_sets_interest_witness :
  ∃ s',
    socket_function 7 CURL_POLL_OUT watching = (Ok tt, s')
    ∧ readers s' !! 7%Z = None
    ∧ writers s' !! 7%Z = Some (7%Z, CURL_CSELECT_OUT).
Proof.
  destruct (socket_function_sets_interest watching 7 CURL_POLL_OUT)
    as (s' & E & _ & Hr & Hw & _).
  - apply (watches_tracked_run [SocketFunction 7 CURL_POLL_IN] (init 1)),
      watches_tracked_init.
  - reflexivity.
  - reflexivity.
  - exists s'. split; [exact E|]. split; [exact Hr|exact Hw].
Defined.


Lemma add_then_remove_handle_witness :
  ∃ s1 s2,
    add_handle curl_B registered = (Ok 1, s1)
    ∧ remove_handle curl_B s1 = (Ok tt, s2)
    ∧ futures s2 = [PENDING; CANCELLED]
    ∧ _curl2future s2 = _curl2future registered
    ∧ _curl2curl s2 = _curl2curl registered.
Proof.
  destruct (add_then_remove_handle registered curl_B)
    as (s1 & s2 & E1 & E2 & Hf & Hr1 & Hr2 & _); [by vm_compute..|].
  exists s1, s2. split; [exact E1|]. split; [exact E2|].
  split; [exact Hf|]. split; [exact Hr1|exact Hr2].
Defined.

Lemma process_data_drains_witness :
  ∃ s',
    process_data 7 CURL_CSELECT_IN
      {| running_handle := 0; msg_queue := mixed_queue |} two_transfers
    = (Ok tt, s')
    ∧ (∃ f, _curl2future two_transfers !! curl_A = Some f
            ∧ futures s' !! f = Some (FINISHED_result PyNone))
    ∧ (∃ f, _curl2future two_transfers !! curl_B = Some f
            ∧ futures s' !! f
              = Some (FINISHED_exception (CurlError curl_B 28 "perform"))).
Proof.
  destruct (process_data_drains two_transfers 7 CURL_CSELECT_IN 0 mixed_queue)
    as (s' & E & P1 & _).
  - apply (registry_wf_run [AddHandle curl_A; AddHandle curl_B] (init 1)),
      registry_wf_init.
  - reflexivity.
  - apply (bool_decide_unpack (NoDup (done_handles mixed_queue))).
    by vm_compute.
  - intros h Hin. apply list_elem_of_In in Hin.
    destruct Hin as [<-|[<-|[]]]; vm_compute; eexists; reflexivity.
  - exists s'. split; [exact E|]. split.
    + destruct (P1 (DONE 100 0) curl_A) as (f & Hf & Hout & _);
        [by left|reflexivity|by vm_compute|].
      exists f. split; [exact Hf|exact Hout].
    + destruct (P1 (DONE 200 28) curl_B) as (f & Hf & Hout & _);
        [by do 2 right; left|reflexivity|by vm_compute|].
      exists f. split; [exact Hf|exact Hout].
Defined.

Lemma get_selector_then_close_witness :
  (_get_selector_windows 0 one_proactor).1 = SelectorLoop 0
  ∧ _selectors (loop_close 0 (_get_selector_windows 0 one_proactor).2) = ∅
  ∧ (_get_selector_windows 0
       (loop_close 0 (_get_selector_windows 0 one_proactor).2)).1
    = SelectorLoop 1.
Proof.
  destruct (get_selector_then_close 0
              {| is_proactor := true; close_patch := None;
                 loop_closed := false |} one_proactor)
    as (E1 & _ & _ & _ & E3 & _ & _ & E6); [by vm_compute..|].
  split; [exact E1|]. split; [exact E3|exact E6].
Defined.

Lemma add_handle_after_close_raises_witness :
  (add_handle curl_A (run [Close] (init 1))).1
  = Raise (TypeError none_for_pointer)
  ∧ futures
      (run (process_data_steps [(7%Z, CURL_CSELECT_IN, duplicate_done)])
         (add_handle curl_A (run [Close] (init 1))).2)
    = [].
Proof.
  destruct (add_handle_after_close_raises (run [Close] (init 1)) curl_A
              [(7%Z, CURL_CSELECT_IN, duplicate_done)])
    as (E1 & _ & E2 & _); [reflexivity|].
  split; [exact E1|exact E2].
Defined.

Lemma socket_function_watch_then_remove_witness :
  ∃ s1,
    socket_function 9 CURL_POLL_INOUT watching = (Ok tt, s1)
    ∧ 9%Z ∈ _sockfds s1
    ∧ socket_function 9 CURL_POLL_REMOVE s1 = (Ok tt, watching).
Proof.
  apply socket_function_watch_then_remove.
  - apply (watches_tracked_run [SocketFunction 7 CURL_POLL_IN] (init 1)),
      watches_tracked_init.
  - by vm_compute.
  - reflexivity.
  - reflexivity.
Defined.
